(** * Dwellable/download: the cache-first service worker

    The repository ships one service worker, [sw.js], and build scripts whose
    [createServiceWorker] writes variants of the same script.  Every variant
    has the same two listeners:

<<
    self.addEventListener('install', event => {
      event.waitUntil(
        caches.open(CACHE_NAME)
          .then(cache => cache.addAll(urlsToCache)));
    });
    self.addEventListener('fetch', event => {
      event.respondWith(
        caches.match(event.request)
          .then(response => response || fetch(event.request)));
    });
>>

    The listeners are embedded as functions over an explicit world (the
    origin's cache storage and a log of the requests sent to the network).
    The browser objects they call ([caches], [Cache], [fetch], the worker
    life cycle) are not code of the repository; they are modelled in the
    sections [Platform] below after the Service Worker and Fetch standards,
    with these abstractions: a request is its method and URL (header-based
    variance through [Vary] is not modelled), a promise is run to completion
    when it is created, and the parallel fetches of [addAll] are logged in
    manifest order. *)

From stdpp Require Import base strings list gmap.

Open Scope string_scope.
Open Scope list_scope.

(** ** Data model *)

Record Request := { method : string; url : string }.

Record Response := {
  status : nat;
  headers : list (string * string);
  body : string
}.

(** A [Cache] is a request/response list.  [put] refuses every method but
    GET, so a key is the URL of a GET request. *)
Abbreviation Cache := (list (string * Response)).

(** [caches]: the origin's stores by name, in creation order. *)
Abbreviation CacheStorage := (list (string * Cache)).

Inductive Failure :=
  | NetworkError        (* fetch: no response could be obtained *)
  | TypeError           (* addAll: a response that cannot be stored *)
  | InvalidStateError   (* addAll: the same request twice *)
  | QuotaExceededError. (* the write did not fit *)

Inductive Settled (A : Type) :=
  | Fulfilled (a : A)
  | Rejected (e : Failure).
Arguments Fulfilled {A} a.
Arguments Rejected {A} e.

(** What the handlers cannot control: the network, and whether a write
    fits the quota. *)
Record Env := {
  network : Request → option Response;
  quota : string → Response → bool
}.

Record World := {
  caches : CacheStorage;
  net_log : list Request
}.

Definition Promise (A : Type) : Type := World → Settled A * World.

Definition resolve {A} (a : A) : Promise A := λ w, (Fulfilled a, w).

(** [p.then(f)] *)
Definition then_ {A B} (p : Promise A) (f : A → Promise B) : Promise B :=
  λ w, match p w with
       | (Fulfilled a, w') => f a w'
       | (Rejected e, w') => (Rejected e, w')
       end.

Notation "p '.then' f" := (then_ p f) (at level 50, left associativity).

Definition GET (u : string) : Request := {| method := "GET"; url := u |}.

(** ** Platform: association lists *)

Fixpoint assoc {A} (k : string) (l : list (string * A)) : option A :=
  match l with
  | [] => None
  | (k', v) :: l' => if decide (k' = k) then Some v else assoc k l'
  end.

Fixpoint assoc_set {A} (k : string) (v : A) (l : list (string * A))
  : list (string * A) :=
  match l with
  | [] => []
  | (k', v') :: l' =>
      if decide (k' = k) then (k', v) :: l' else (k', v') :: assoc_set k v l'
  end.

Definition names {A} (l : list (string * A)) : list string := fst <$> l.

(** ** Platform: Cache *)

(** [cache.match(request)]: nothing matches a request that is not a GET. *)
Definition cache_match (r : Request) (c : Cache) : option Response :=
  if decide (method r = "GET") then assoc (url r) c else None.

(** One put of a batch: the entries matching the request are removed and
    the new pair is appended. *)
Definition cache_put (u : string) (resp : Response) (c : Cache) : Cache :=
  filter (λ e, e.1 ≠ u) c ++ [(u, resp)].

(** Batch Cache Operations, for puts.  [added] are the requests already put
    by this batch.  On [inl] the caller keeps the cache it had. *)
Fixpoint batch_put (env : Env) (added : list string)
    (ops : list (string * Response)) (c : Cache) : Failure + Cache :=
  match ops with
  | [] => inr c
  | (u, resp) :: ops' =>
      if decide (u ∈ added) then inl InvalidStateError
      else if quota env u resp
           then batch_put env (u :: added) ops' (cache_put u resp c)
           else inl QuotaExceededError
  end.

Definition ok_status (n : nat) : bool :=
  bool_decide (200 ≤ n ≤ 299)%nat && negb (bool_decide (n = 206%nat)).

(** The fetch [addAll] makes for one URL: a network error, a status outside
    200..299 and a 206 all fail it. *)
Definition addAll_fetch (env : Env) (u : string) : option Response :=
  match network env (GET u) with
  | Some resp => if ok_status (status resp) then Some resp else None
  | None => None
  end.

(** [cache.addAll(urls)], on the store the handle [cache] names.  Every URL
    is requested; the batch is written only when every response arrived, and
    a batch that fails leaves the store as it was.  (A handle whose store is
    gone reads as empty and its writes are not seen; the listeners never
    meet the case, they open the store first.) *)
Definition cache_addAll (env : Env) (cache : string) (urls : list string)
  : Promise () :=
  λ w,
    let log := net_log w ++ (GET <$> urls) in
    match mapM (addAll_fetch env) urls with
    | None => (Rejected TypeError, {| caches := caches w; net_log := log |})
    | Some responses =>
        match batch_put env [] (zip urls responses)
                (default [] (assoc cache (caches w))) with
        | inl e => (Rejected e, {| caches := caches w; net_log := log |})
        | inr c' =>
            (Fulfilled (),
             {| caches := assoc_set cache c' (caches w); net_log := log |})
        end
    end.

(** ** Platform: CacheStorage and fetch *)

(** [caches.open(name)]: the store is created when there is none. *)
Definition caches_open (name : string) : Promise string :=
  λ w, match assoc name (caches w) with
       | Some _ => (Fulfilled name, w)
       | None =>
           (Fulfilled name,
            {| caches := caches w ++ [(name, [])]; net_log := net_log w |})
       end.

Fixpoint storage_match (r : Request) (st : CacheStorage) : option Response :=
  match st with
  | [] => None
  | (_, c) :: st' =>
      match cache_match r c with
      | Some resp => Some resp
      | None => storage_match r st'
      end
  end.

(** [caches.match(request)]: the stores are asked in creation order and the
    first match is the answer; [undefined] is [None]. *)
Definition caches_match (r : Request) : Promise (option Response) :=
  λ w, (Fulfilled (storage_match r (caches w)), w).

(** [caches.delete(name)] *)
Definition caches_delete (name : string) : Promise bool :=
  λ w, (Fulfilled (bool_decide (is_Some (assoc name (caches w)))),
        {| caches := filter (λ e, e.1 ≠ name) (caches w);
           net_log := net_log w |}).

(** [fetch(request)]: one request on the network; any response, whatever
    its status, fulfils the promise. *)
Definition fetch (env : Env) (r : Request) : Promise Response :=
  λ w, (match network env r with
        | Some resp => Fulfilled resp
        | None => Rejected NetworkError
        end,
        {| caches := caches w; net_log := net_log w ++ [r] |}).

(** ** The service worker scripts *)

Record Script := {
  CACHE_NAME : string;
  urlsToCache : list string
}.

#[global] Instance Script_eq_dec : EqDecision Script.
Proof. solve_decision. Defined.

(** src/sw.js, lines 1-10.  The build script that follows it in the same
    source file writes a script with these same two constants. *)
Definition sw_js : Script := {|
  CACHE_NAME := "dwellable-v1";
  urlsToCache := [
    "/";
    "/index.html";
    "/join.html";
    "/home.png";
    "/reminders.png";
    "/property_info.png";
    "/inspection.png"
  ]
|}.

Module optimize_simple.
(** src/optimize-simple.js, the script [createServiceWorker] writes *)
Definition createServiceWorker : Script := {|
  CACHE_NAME := "dwellable-v1";
  urlsToCache := [
    "/";
    "/index.min.html";
    "/home.png";
    "/reminders.png";
    "/property_info.png";
    "/inspection.png"
  ]
|}.
End optimize_simple.

Module optimize_local.
(** src/optimize-local.js, the script [createServiceWorker] writes *)
Definition createServiceWorker : Script := {|
  CACHE_NAME := "dwellable-v1";
  urlsToCache := [
    "/";
    "/index.min.html";
    "/home.webp";
    "/reminders.webp";
    "/property_info.webp";
    "/inspection.webp"
  ]
|}.
End optimize_local.

(** The promise the install listener hands to [event.waitUntil]. *)
Definition on_install (env : Env) (s : Script) : Promise () :=
  caches_open (CACHE_NAME s) .then (λ cache,
    cache_addAll env cache (urlsToCache s)).

(** The promise the fetch listener hands to [event.respondWith]. *)
Definition on_fetch (env : Env) (r : Request) : Promise Response :=
  caches_match r .then (λ response,
    match response with
    | Some stored => resolve stored
    | None => fetch env r
    end).

(** ** Platform: the worker's life cycle *)

(** A worker that was never installed, one whose install promise was
    fulfilled (waiting), the one controlling the pages, and one whose
    install promise was rejected. *)
Inductive Phase := Unregistered | Installed | Active | Redundant.

Record System := {
  world : World;
  phase : Phase
}.

Inductive Event :=
  | Install
  | Activate
  | Fetch (r : Request).

(** The script listens to [install] and [fetch] and to nothing else: an
    [activate] event runs no code of it.  A page's request is handed to the
    fetch listener only while the worker is active; otherwise it goes to the
    network as it is. *)
Definition dispatch (env : Env) (s : Script) (sys : System) (ev : Event)
  : System :=
  match ev, phase sys with
  | Install, Unregistered =>
      match on_install env s (world sys) with
      | (Fulfilled _, w) => {| world := w; phase := Installed |}
      | (Rejected _, w) => {| world := w; phase := Redundant |}
      end
  | Activate, Installed => {| world := world sys; phase := Active |}
  | Fetch r, Active =>
      {| world := (on_fetch env r (world sys)).2; phase := Active |}
  | Fetch r, _ =>
      {| world := (fetch env r (world sys)).2; phase := phase sys |}
  | _, _ => sys
  end.

Definition run (env : Env) (s : Script) (evs : list Event) (sys : System)
  : System :=
  foldl (dispatch env s) sys evs.

(** The fetch listener on a sequence of requests, one after the other. *)
Fixpoint serve (env : Env) (rs : list Request) (w : World)
  : list (Settled Response) * World :=
  match rs with
  | [] => ([], w)
  | r :: rs' =>
      let '(x, w1) := on_fetch env r w in
      let '(xs, w2) := serve env rs' w1 in
      (x :: xs, w2)
  end.

Definition store (name : string) (w : World) : option Cache :=
  assoc name (caches w).

Definition stored_urls (name : string) (w : World) : list string :=
  names (default [] (store name w)).

Definition empty_world : World := {| caches := []; net_log := [] |}.

(** ** Test fixtures *)

Definition page (b : string) : Response :=
  {| status := 200; headers := []; body := b |}.

(** Every URL answers 200 with its own name as the body. *)
Definition online : Env := {|
  network := λ r, Some (page (url r));
  quota := λ _ _, true
|}.

(** As [online], but [/join.html] is not found. *)
Definition join_missing : Env := {|
  network := λ r,
    if decide (url r = "/join.html")
    then Some {| status := 404; headers := []; body := "" |}
    else Some (page (url r));
  quota := λ _ _, true
|}.

Definition offline : Env := {|
  network := λ _, None;
  quota := λ _ _, true
|}.

(** ** What an install leaves behind *)

(** The entries of [c] a batch does not touch, followed by the batch. *)
Definition batch_result (ops : list (string * Response)) (c : Cache) : Cache :=
  filter (λ e, e.1 ∉ names ops) c ++ ops.

(** A batch goes through when no request occurs twice and every write fits. *)
Definition batch_ok (env : Env) (added : list string)
    (ops : list (string * Response)) : Prop :=
  NoDup (names ops) ∧ (∀ u, u ∈ names ops → u ∉ added) ∧
  Forall (λ e, quota env e.1 e.2 = true) ops.

(** The world once [caches.open(name)] is fulfilled. *)
Definition opened (name : string) (w : World) : World :=
  (caches_open name w).2.

(** Fetching or storing the asset fails. *)
Definition asset_fails (env : Env) (u : string) : Prop :=
  match addAll_fetch env u with
  | Some resp => quota env u resp = false
  | None => True
  end.

(** The store the install listener leaves when its promise is fulfilled. *)
Definition installed (s : Script) (responses : list Response) (w : World)
  : World :=
  {| caches :=
       assoc_set (CACHE_NAME s)
         (batch_result (zip (urlsToCache s) responses)
            (default [] (store (CACHE_NAME s) w)))
         (caches (opened (CACHE_NAME s) w));
     net_log := net_log w ++ (GET <$> urlsToCache s) |}.

(** The world it leaves when its promise is rejected. *)
Definition install_failed (s : Script) (w : World) : World :=
  {| caches := caches (opened (CACHE_NAME s) w);
     net_log := net_log w ++ (GET <$> urlsToCache s) |}.

(** ** Invariants *)

Definition wf_world (w : World) : Prop :=
  NoDup (names (caches w)) ∧ Forall (λ e, NoDup (names e.2)) (caches w).

(** What a worker whose install cannot succeed can be: not yet installed
    with the stores untouched, or discarded with the stores as
    [caches.open] left them. *)
Definition never_live (s : Script) (w : World) (sys : System) : Prop :=
  (phase sys = Unregistered ∧ caches (world sys) = caches w) ∨
  (phase sys = Redundant ∧
   caches (world sys) = caches (opened (CACHE_NAME s) w)).

(** ** The specification's fetch listener, and the variants *)

Definition settle (o : option Response) : Settled Response :=
  match o with
  | Some resp => Fulfilled resp
  | None => Rejected NetworkError
  end.

(** The fetch listener as the specification words it: the lookup is made in
    the store named by the script's tag and in no other. *)
Definition on_fetch_current_store (env : Env) (s : Script) (r : Request)
  : Promise Response :=
  λ w, match store (CACHE_NAME s) w ≫= cache_match r with
       | Some stored => (Fulfilled stored, w)
       | None => fetch env r w
       end.

(** An earlier release of the site, under an earlier tag. *)
Definition sw_v0 : Script := {|
  CACHE_NAME := "dwellable-v0";
  urlsToCache := ["/index.html"]
|}.

Definition earlier_release : Env := {|
  network := λ r, Some (page (String.append "v0 " (url r)));
  quota := λ _ _, true
|}.

(** The stores after [sw_v0] was installed against the earlier release and
    [sw_js] against the present one. *)
Definition two_generations : World :=
  (on_install online sw_js
     (on_install earlier_release sw_v0 empty_world).2).2.

Definition variants : list Script :=
  [sw_js; optimize_simple.createServiceWorker;
   optimize_local.createServiceWorker].

(** Closed decidable goals, such as membership in a manifest. *)
Ltac by_compute := apply (bool_decide_unpack _); vm_compute; exact I.

(** ** Node: the file system as the build scripts use it

    The build scripts are embedded from the point where
    html-minifier-terser has been loaded (without it they exit at once).
    The working directory is a map from file names to contents, which are
    bytes; a read or a size query of a missing file throws, a write always
    goes through.  A JavaScript string is held as its UTF-8 encoding, so
    writing a string writes it as it is, while reading a file as UTF-8 is a
    function [utf8] of its bytes: the bytes themselves when they are
    well-formed UTF-8, and otherwise the bytes with U+FFFD in the place of
    what is ill-formed.  [utf8], the minifier and gzip are parameters of
    the scripts.  What the scripts print is not modelled, the file sizes
    they print are still read, since reading them can throw. *)

Module node.

Inductive Error :=
  | ENOENT (path : string)   (* no such file *)
  | MinifyError.             (* the minifier's promise was rejected *)

(** A synchronous script step over the files of the working directory: it
    returns or throws, and what it wrote before it threw stays written. *)
Definition IO (A : Type) : Type :=
  gmap string string → (Error + A) * gmap string string.

Definition ret {A} (a : A) : IO A := λ fs, (inr a, fs).

Definition throw {A} (e : Error) : IO A := λ fs, (inl e, fs).

Definition bind {A B} (m : IO A) (k : A → IO B) : IO B :=
  λ fs, match m fs with
        | (inr a, fs') => k a fs'
        | (inl e, fs') => (inl e, fs')
        end.

(** [fs.readFileSync(path, 'utf8')]: the bytes of the file, decoded. *)
Definition readFileSync (utf8 : string → string) (path : string)
  : IO string :=
  λ fs, match fs !! path with
        | Some data => (inr (utf8 data), fs)
        | None => (inl (ENOENT path), fs)
        end.

(** [fs.writeFileSync(path, data)] *)
Definition writeFileSync (path data : string) : IO () :=
  λ fs, (inr (), <[path := data]> fs).

(** [fs.existsSync(path)] *)
Definition existsSync (path : string) : IO bool :=
  λ fs, (inr (bool_decide (is_Some (fs !! path))), fs).

(** [fs.statSync(path).size] *)
Definition statSync_size (path : string) : IO nat :=
  λ fs, match fs !! path with
        | Some data => (inr (String.length data), fs)
        | None => (inl (ENOENT path), fs)
        end.

(** [await] on the minifier's promise; [None] is a rejection. *)
Definition await (result : option string) : IO string :=
  match result with
  | Some minified => ret minified
  | None => throw MinifyError
  end.

(** [try { body } catch (error) { ...; process.exit(1) }]: the exit code of
    the process and the files it leaves. *)
Definition try_exit (body : IO ()) (fs : gmap string string)
  : nat * gmap string string :=
  match body fs with
  | (inr _, fs') => (0%nat, fs')
  | (inl _, fs') => (1%nat, fs')
  end.

End node.

Notation "'let*' x ':=' m 'in' k" := (node.bind m (λ x, k))
  (at level 10, x name, m at level 100, k at level 200).
Notation "m ';;' k" := (node.bind m (λ _, k))
  (at level 100, k at level 200, right associativity).

(** ** The build script that follows sw.js in src/sw.js (lines 24-157) *)

Module optimize_js.
Import node.

Section with_libraries.
(** Reading as UTF-8, [minify] of html-minifier-terser with the script's
    options, and [zlib.gzipSync]. *)
Variable utf8 : string → string.
Variable minify : string → option string.
Variable gzipSync : string → string.

(** lines 37-100; the sizes are read for the report on the console, which
    is not modelled. *)
Definition optimizeHTML : IO () :=
  let* html := readFileSync utf8 "index.html" in
  let* minified := await (minify html) in
  writeFileSync "index.original.html" html ;;
  writeFileSync "index.html" minified ;;
  let gzipped := gzipSync minified in
  writeFileSync "index.html.gz" gzipped ;;
  let* join_exists := existsSync "join.html" in
  (if join_exists : bool then
     let* joinHtml := readFileSync utf8 "join.html" in
     let* joinMinified := await (minify joinHtml) in
     writeFileSync "join.original.html" joinHtml ;;
     writeFileSync "join.html" joinMinified ;;
     let joinGzipped := gzipSync joinMinified in
     writeFileSync "join.html.gz" joinGzipped
   else ret ()) ;;
  let* originalSize := statSync_size "index.original.html" in
  let* minifiedSize := statSync_size "index.html" in
  let* gzippedSize := statSync_size "index.html.gz" in
  let* join_original_exists := existsSync "join.original.html" in
  if join_original_exists : bool then
    let* joinOriginalSize := statSync_size "join.original.html" in
    let* joinMinifiedSize := statSync_size "join.html" in
    let* joinGzippedSize := statSync_size "join.html.gz" in
    ret ()
  else ret ().

(** lines 105-128: the text of the script *)
Definition sw : string :=
"const CACHE_NAME = 'dwellable-v1';
const urlsToCache = [
  '/',
  '/index.html',
  '/join.html',
  '/home.png',
  '/reminders.png', 
  '/property_info.png',
  '/inspection.png'
];

self.addEventListener('install', event => {
  event.waitUntil(
    caches.open(CACHE_NAME)
      .then(cache => cache.addAll(urlsToCache))
  );
});

self.addEventListener('fetch', event => {
  event.respondWith(
    caches.match(event.request)
      .then(response => response || fetch(event.request))
  );
});".

(** lines 102-132 *)
Definition createServiceWorker : IO () := writeFileSync "sw.js" sw.

(** lines 134-156 *)
Definition main : gmap string string → nat * gmap string string :=
  try_exit (optimizeHTML ;; createServiceWorker).

End with_libraries.
End optimize_js.

(** ** src/optimize-simple.js *)

Module optimize_simple_js.
Import node.

Section with_libraries.
Variable utf8 : string → string.
Variable minify : string → option string.
Variable gzipSync : string → string.

(** lines 14-48 *)
Definition optimizeHTML : IO () :=
  let* html := readFileSync utf8 "index.html" in
  let* minified := await (minify html) in
  writeFileSync "index.min.html" minified ;;
  let gzipped := gzipSync minified in
  writeFileSync "index.min.html.gz" gzipped ;;
  let* originalSize := statSync_size "index.html" in
  let* minifiedSize := statSync_size "index.min.html" in
  let* gzippedSize := statSync_size "index.min.html.gz" in
  ret ().

(** lines 53-75: the text of the script *)
Definition sw : string :=
"const CACHE_NAME = 'dwellable-v1';
const urlsToCache = [
  '/',
  '/index.min.html',
  '/home.png',
  '/reminders.png', 
  '/property_info.png',
  '/inspection.png'
];

self.addEventListener('install', event => {
  event.waitUntil(
    caches.open(CACHE_NAME)
      .then(cache => cache.addAll(urlsToCache))
  );
});

self.addEventListener('fetch', event => {
  event.respondWith(
    caches.match(event.request)
      .then(response => response || fetch(event.request))
  );
});".

(** lines 50-79 *)
Definition createServiceWorker : IO () := writeFileSync "sw.js" sw.

(** lines 81-103 *)
Definition main : gmap string string → nat * gmap string string :=
  try_exit (optimizeHTML ;; createServiceWorker).

End with_libraries.
End optimize_simple_js.

(** ** src/optimize-local.js: what [optimizeHTML] does to the page

    The page is a list of characters.  The embedding covers the two
    replacements of image sources and the insertion of the performance
    script (lines 32-66), up to the call of the minifier. *)

Module optimize_local_js.
Import Stdlib.Strings.Ascii.

(** The double quote. *)
Definition dq : ascii := ascii_of_nat 34.

Definition chars (s : string) : list ascii :=
  String.list_ascii_of_string s.

(** [p] at the head of [s]: what follows it. *)
Fixpoint strip_prefix (p s : list ascii) : option (list ascii) :=
  match p, s with
  | [], _ => Some s
  | _ :: _, [] => None
  | a :: p', b :: s' => if decide (a = b) then strip_prefix p' s' else None
  end.

(** The first occurrence of [pat] in [s]: what is before and after it. *)
Fixpoint find_first (pat s : list ascii) : option (list ascii * list ascii) :=
  match strip_prefix pat s with
  | Some after => Some ([], after)
  | None =>
      match s with
      | [] => None
      | c :: s' =>
          match find_first pat s' with
          | Some (before, after) => Some (c :: before, after)
          | None => None
          end
      end
  end.

(** [s.replace(pat, rep)] with a string pattern: the first occurrence only.
    No replacement text of the script has a dollar sign. *)
Definition replace_first (pat rep s : list ascii) : list ascii :=
  match find_first pat s with
  | Some (before, after) => before ++ rep ++ after
  | None => s
  end.

(** The characters up to the next double quote, and what follows it. *)
Fixpoint until_dq (s : list ascii) : option (list ascii * list ascii) :=
  match s with
  | [] => None
  | c :: s' =>
      if decide (c = dq) then Some ([], s')
      else match until_dq s' with
           | Some (run, rest) => Some (c :: run, rest)
           | None => None
           end
  end.

Definition src_open : list ascii := chars "src=" ++ [dq].

(** The regular expression [src=Q([^Q]+\.ext)Q], where Q stands for the
    double quote, at the head of [s]: the group, and what follows the match.
    The group cannot hold a quote, so it is the run up to the next quote; it
    has to end with the extension and to have a character before it. *)
Definition match_img (ext s : list ascii)
  : option (list ascii * list ascii) :=
  match strip_prefix src_open s with
  | None => None
  | Some body =>
      match until_dq body with
      | None => None
      | Some (src, rest) =>
          if decide (chars "." ++ ext `suffix_of` src
                     ∧ length (chars "." ++ ext) < length src)
          then Some (src, rest)
          else None
      end
  end.

(** The text the replacer function returns for the group [src]. *)
Definition with_fallback (ext src : list ascii) : list ascii :=
  let webpSrc := replace_first (chars "." ++ ext) (chars ".webp") src in
  src_open ++ webpSrc ++ [dq] ++ chars " onerror=" ++ [dq]
    ++ chars "this.src='" ++ src ++ chars "'; this.onerror=null;" ++ [dq].

(** [s.replace(/src=Q([^Q]+\.ext)Q/g, replacer)]: the matches are taken
    from left to right and the search resumes after each match; [skip]
    counts the characters of the current match still to pass. *)
Fixpoint replace_img (ext : list ascii) (skip : nat) (s : list ascii)
  : list ascii :=
  match s with
  | [] => []
  | c :: s' =>
      match skip with
      | S k => replace_img ext k s'
      | O =>
          match match_img ext s with
          | Some (src, rest) =>
              with_fallback ext src
                ++ replace_img ext (length s' - length rest) s'
          | None => c :: replace_img ext 0 s'
          end
      end
  end.

(** lines 46-64 *)
Definition performanceScript : list ascii :=
  chars "
  <script>
  // Preload critical resources
  if ('loading' in HTMLImageElement.prototype) {
    const images = document.querySelectorAll('img[loading=" ++ [dq] ++ chars "lazy" ++ [dq] ++ chars "]');
    images.forEach(img => {
      img.loading = 'lazy';
    });
  }
  
  // Service worker registration
  if ('serviceWorker' in navigator) {
    window.addEventListener('load', () => {
      navigator.serviceWorker.register('/sw.js')
        .then(reg => console.log('SW registered'))
        .catch(err => console.log('SW registration failed'));
    });
  }
  </script>".

(** lines 32-66: the page [optimizeHTML] hands to the minifier. *)
Definition optimizedHtml (html : list ascii) : list ascii :=
  let with_webp :=
    replace_img (chars "jpg") 0 (replace_img (chars "png") 0 html) in
  replace_first (chars "</body>") (performanceScript ++ chars "</body>")
    with_webp.

(** lines 23-27 *)
Definition optimizeImages : bool := false.

End optimize_local_js.

(** ** What the build scripts leave *)

(** The files once the three index files are written. *)
Definition index_written (gzipSync : string → string) (html m : string)
    (fs : gmap string string) : gmap string string :=
  <["index.html.gz" := gzipSync m]>
    (<["index.html" := m]> (<["index.original.html" := html]> fs)).

(** ** Fixtures for the build scripts *)

(** A minifier that drops nothing and marks what it has seen; it rejects
    the page [<<]. *)
Definition mark_minified (html : string) : option string :=
  if decide (html = "<<") then None else Some (String.append "min " html).

Definition mark_gzipped (data : string) : string := String.append "gz " data.

(** Reading as UTF-8, for files of ASCII bytes and the byte FF, which no
    UTF-8 sequence holds: every FF reads as U+FFFD, that is EF BF BD. *)
Fixpoint read_utf8 (data : string) : string :=
  match data with
  | EmptyString => EmptyString
  | String c rest =>
      if decide (c = Ascii.ascii_of_nat 255)
      then String (Ascii.ascii_of_nat 239)
             (String (Ascii.ascii_of_nat 191)
                (String (Ascii.ascii_of_nat 189) (read_utf8 rest)))
      else String c (read_utf8 rest)
  end.

(** A page saved in another encoding: the byte FF, then ASCII. *)
Definition legacy_page : string := String (Ascii.ascii_of_nat 255) "<p>".

Definition site : gmap string string :=
  {[ "index.html" := "<html> </html>"; "style.css" := "p { }" ]}.

(** ** Association lists *)

Section assoc_facts.
Context {A : Type}.
Implicit Types (k : string) (v : A) (l : list (string * A)).

Lemma assoc_None k l : assoc k l = None ↔ k ∉ names l.
Proof.
  induction l as [|[k' v'] l IH]; simpl.
  - split; [intros _; apply not_elem_of_nil | done].
  - rewrite not_elem_of_cons. case_decide; simplify_eq.
    + split; [done | intros [? _]; done].
    + rewrite IH. split; [intros ?; split; [congruence | done] | intros [_ ?]; done].
Qed.

Lemma assoc_Some_elem k v l : assoc k l = Some v → (k, v) ∈ l.
Proof.
  induction l as [|[k' v'] l IH]; simpl; [done|].
  case_decide; intros ?; simplify_eq; [left | right; auto].
Qed.

Lemma assoc_app k l1 l2 :
  assoc k (l1 ++ l2) =
  match assoc k l1 with Some v => Some v | None => assoc k l2 end.
Proof.
  induction l1 as [|[k' v'] l1 IH]; simpl; [done|].
  by case_decide.
Qed.

Lemma assoc_set_names k v l : names (assoc_set k v l) = names l.
Proof.
  induction l as [|[k' v'] l IH]; simpl; [done|].
  case_decide; simpl; [done|]. by f_equal.
Qed.

Lemma assoc_set_eq k v l :
  assoc k (assoc_set k v l) = (λ _, v) <$> assoc k l.
Proof.
  induction l as [|[k' v'] l IH]; simpl; [done|].
  case_decide; simpl; case_decide; done.
Qed.

Lemma assoc_set_ne k k' v l :
  k ≠ k' → assoc k' (assoc_set k v l) = assoc k' l.
Proof.
  intros Hne. induction l as [|[k1 v1] l IH]; simpl; [done|].
  case_decide; simpl; case_decide; simplify_eq; done.
Qed.

Lemma assoc_filter_ne k k' l :
  k ≠ k' → assoc k' (filter (λ e, e.1 ≠ k) l) = assoc k' l.
Proof.
  intros Hne. induction l as [|[k1 v1] l IH]; simpl; [done|].
  rewrite filter_cons; simpl.
  repeat (case_decide; simpl); simplify_eq; done.
Qed.

Lemma assoc_NoDup_elem k v l : NoDup (names l) → (k, v) ∈ l → assoc k l = Some v.
Proof.
  induction l as [|[k' v'] l IH]; simpl.
  - intros _ H. by apply elem_of_nil in H.
  - rewrite NoDup_cons, elem_of_cons. intros [Hk Hl] [?|Hin]; simplify_eq.
    + by rewrite decide_True.
    + rewrite decide_False; [auto|].
      intros ->. apply Hk. unfold names. apply list_elem_of_fmap.
      by exists (k, v).
Qed.
End assoc_facts.

(** ** What a batch of puts leaves behind *)

Lemma batch_result_nil c : batch_result [] c = c.
Proof.
  unfold batch_result. rewrite app_nil_r.
  induction c as [|e c IH]; [done|].
  rewrite filter_cons_True; [by rewrite IH | apply not_elem_of_nil].
Qed.

Lemma batch_result_cons u resp ops c :
  u ∉ names ops →
  batch_result ops (cache_put u resp c) = batch_result ((u, resp) :: ops) c.
Proof.
  intros Hu. unfold batch_result, cache_put.
  rewrite filter_app, list_filter_filter.
  rewrite filter_cons_True, filter_nil by done.
  rewrite <- app_assoc; simpl. f_equal.
  apply list_filter_iff. intros [k v]; simpl.
  rewrite not_elem_of_cons. tauto.
Qed.

Lemma batch_put_inr env added ops c c' :
  batch_put env added ops c = inr c' →
  batch_ok env added ops ∧ c' = batch_result ops c.
Proof.
  revert added c.
  induction ops as [|[u resp] ops IH]; intros added c; simpl.
  - intros [= <-]. rewrite batch_result_nil. repeat split.
    + constructor.
    + intros u Hu. by apply elem_of_nil in Hu.
    + constructor.
  - case_decide as Hadded; [done|].
    destruct (quota env u resp) eqn:Hq; [|done].
    intros Hput. apply IH in Hput as [(Hnd & Hfresh & Hfits) ->].
    assert (u ∉ names ops) as Hu.
    { intros Hin. apply (Hfresh _ Hin). left. }
    split; [|by apply batch_result_cons].
    repeat split.
    + by constructor.
    + intros k [->|Hk]%elem_of_cons; [done|].
      intros Hin. apply (Hfresh _ Hk). by right.
    + by constructor.
Qed.

Lemma batch_put_ok env added ops c :
  batch_ok env added ops →
  batch_put env added ops c = inr (batch_result ops c).
Proof.
  revert added c.
  induction ops as [|[u resp] ops IH]; intros added c (Hnd & Hfresh & Hfits);
    simpl.
  - by rewrite batch_result_nil.
  - apply NoDup_cons in Hnd as [Hu Hnd].
    apply Forall_cons in Hfits as [Hq Hfits]; simpl in Hq.
    rewrite decide_False by (apply Hfresh; left).
    rewrite Hq, IH; [by rewrite batch_result_cons|].
    repeat split; [done| |done].
    intros k Hk [->|Hin]%elem_of_cons; [done|].
    apply (Hfresh k); [by right | done].
Qed.

Lemma batch_result_names ops c :
  names (batch_result ops c) =
  filter (λ k, k ∉ names ops) (names c) ++ names ops.
Proof.
  unfold batch_result, names. rewrite fmap_app. f_equal.
  induction c as [|[k v] c IH]; [done|].
  rewrite fmap_cons, !filter_cons. cbn [fst].
  case_decide; rewrite ?fmap_cons, IH; done.
Qed.

Lemma batch_result_assoc ops c u resp :
  NoDup (names ops) → (u, resp) ∈ ops →
  assoc u (batch_result ops c) = Some resp.
Proof.
  intros Hnd Hin. unfold batch_result. rewrite assoc_app.
  replace (assoc u (filter _ c)) with (@None Response).
  - by apply assoc_NoDup_elem.
  - symmetry. apply assoc_None. unfold names.
    intros ([k v] & -> & [Hk _]%list_elem_of_filter)%list_elem_of_fmap.
    apply Hk. apply list_elem_of_fmap. by exists (k, resp).
Qed.

(** ** The install listener *)

Lemma store_opened_eq name w :
  store name (opened name w) = Some (default [] (store name w)).
Proof.
  unfold opened, caches_open, store.
  destruct (assoc name (caches w)) eqn:Hs; simpl; [done|].
  rewrite assoc_app, Hs; simpl. by rewrite decide_True.
Qed.

Lemma store_opened_ne name n w :
  n ≠ name → store n (opened name w) = store n w.
Proof.
  intros Hne. unfold opened, caches_open, store.
  destruct (assoc name (caches w)); simpl; [done|].
  rewrite assoc_app; simpl. rewrite decide_False by done.
  by destruct (assoc n (caches w)).
Qed.

Lemma opened_cases name w :
  (is_Some (store name w) ∧ opened name w = w) ∨
  (store name w = None ∧
   opened name w =
     {| caches := caches w ++ [(name, [])]; net_log := net_log w |}).
Proof.
  unfold opened, caches_open, store.
  destruct (assoc name (caches w)); simpl; [left | right]; eauto.
Qed.

Lemma opened_net_log name w : net_log (opened name w) = net_log w.
Proof. by destruct (opened_cases name w) as [[_ ->]|[_ ->]]. Qed.

Lemma on_install_eq env s w :
  on_install env s w =
  cache_addAll env (CACHE_NAME s) (urlsToCache s) (opened (CACHE_NAME s) w).
Proof.
  unfold on_install, then_, opened, caches_open.
  by destruct (assoc (CACHE_NAME s) (caches w)).
Qed.

Lemma on_install_cases env s w :
  (∃ responses,
      mapM (addAll_fetch env) (urlsToCache s) = Some responses ∧
      batch_ok env [] (zip (urlsToCache s) responses) ∧
      on_install env s w = (Fulfilled (), installed s responses w)) ∨
  (∃ e,
      (∀ responses,
          mapM (addAll_fetch env) (urlsToCache s) = Some responses →
          ¬ batch_ok env [] (zip (urlsToCache s) responses)) ∧
      on_install env s w = (Rejected e, install_failed s w)).
Proof.
  rewrite on_install_eq. unfold cache_addAll, installed, install_failed.
  rewrite opened_net_log.
  fold (store (CACHE_NAME s) (opened (CACHE_NAME s) w)).
  rewrite store_opened_eq; simpl.
  destruct (mapM _ _) as [responses|] eqn:Hfetch.
  - destruct (batch_put _ _ _ _) as [e|c'] eqn:Hput.
    + right. exists e. split; [|done].
      intros ? [= <-] Hok.
      by rewrite (batch_put_ok _ _ _ _ Hok) in Hput.
    + left. exists responses.
      apply batch_put_inr in Hput as [Hok ->]. done.
  - right. exists TypeError. split; [|done]. by intros ? [=].
Qed.

Lemma on_install_fulfilled env s w w' :
  on_install env s w = (Fulfilled (), w') →
  ∃ responses,
    mapM (addAll_fetch env) (urlsToCache s) = Some responses ∧
    batch_ok env [] (zip (urlsToCache s) responses) ∧
    w' = installed s responses w.
Proof.
  destruct (on_install_cases env s w)
    as [(responses & ? & ? & ->)|(e & _ & ->)]; [|done].
  intros [= <-]. eauto.
Qed.

Lemma zip_names (urls : list string) (responses : list Response) :
  length urls = length responses → names (zip urls responses) = urls.
Proof. intros Hlen. unfold names. apply fst_zip. lia. Qed.

Lemma asset_in_batch env urls responses u :
  mapM (addAll_fetch env) urls = Some responses → u ∈ urls →
  ∃ resp, addAll_fetch env u = Some resp ∧ (u, resp) ∈ zip urls responses.
Proof.
  intros Hall%mapM_Some_1.
  induction Hall as [|u' resp urls responses Hu' _ IH]; simpl.
  - intros H. by apply elem_of_nil in H.
  - intros [->|Hin]%elem_of_cons.
    + exists resp. split; [done | left].
    + destruct (IH Hin) as (resp' & ? & ?). exists resp'. split; [done|].
      by right.
Qed.

Lemma on_install_rejects env s w u :
  u ∈ urlsToCache s → asset_fails env u →
  ∃ e, on_install env s w = (Rejected e, install_failed s w).
Proof.
  intros Hu Hfails.
  destruct (on_install_cases env s w)
    as [(responses & Hfetch & (_ & _ & Hfits) & _)|(e & _ & ->)]; [|eauto].
  exfalso. unfold asset_fails in Hfails.
  destruct (asset_in_batch _ _ _ _ Hfetch Hu) as (resp & Hresp & Hin).
  rewrite Hresp in Hfails.
  rewrite Forall_forall in Hfits. specialize (Hfits _ Hin); simpl in Hfits.
  congruence.
Qed.

Lemma on_install_succeeds env s w :
  NoDup (urlsToCache s) →
  (∀ u, u ∈ urlsToCache s → ¬ asset_fails env u) →
  ∃ responses,
    mapM (addAll_fetch env) (urlsToCache s) = Some responses ∧
    on_install env s w = (Fulfilled (), installed s responses w).
Proof.
  intros Hnd Hok.
  assert (is_Some (mapM (addAll_fetch env) (urlsToCache s)))
    as [responses Hfetch].
  { apply mapM_is_Some_2, Forall_forall. intros u Hu; simpl.
    specialize (Hok u Hu). unfold asset_fails in Hok.
    destruct (addAll_fetch env u); [eauto | tauto]. }
  destruct (on_install_cases env s w)
    as [(responses' & Hfetch' & _ & ->)|(e & Hbad & _)].
  { exists responses'. done. }
  exfalso. apply (Hbad _ Hfetch).
  pose proof (length_mapM _ _ _ Hfetch) as Hlen.
  repeat split.
  - by rewrite zip_names.
  - intros ? _. apply not_elem_of_nil.
  - apply Forall_forall. intros [u resp] Hin; simpl.
    assert (u ∈ urlsToCache s) as Hu.
    { rewrite <- (zip_names _ responses Hlen). unfold names.
      apply list_elem_of_fmap. by exists (u, resp). }
    destruct (asset_in_batch _ _ _ _ Hfetch Hu) as (resp' & Hresp & Hin').
    assert (resp' = resp) as ->.
    { assert (NoDup (names (zip (urlsToCache s) responses))) as Hnd'
        by by rewrite zip_names.
      pose proof (assoc_NoDup_elem _ _ _ Hnd' Hin).
      pose proof (assoc_NoDup_elem _ _ _ Hnd' Hin'). congruence. }
    specialize (Hok u Hu). unfold asset_fails in Hok. rewrite Hresp in Hok.
    by destruct (quota env u resp).
Qed.

Lemma installed_store_eq s responses w :
  store (CACHE_NAME s) (installed s responses w) =
  Some (batch_result (zip (urlsToCache s) responses)
          (default [] (store (CACHE_NAME s) w))).
Proof.
  unfold store at 1, installed; simpl. rewrite assoc_set_eq.
  fold (store (CACHE_NAME s) (opened (CACHE_NAME s) w)).
  by rewrite store_opened_eq.
Qed.

Lemma installed_store_ne s responses w n :
  n ≠ CACHE_NAME s → store n (installed s responses w) = store n w.
Proof.
  intros Hne. unfold store at 1, installed; simpl.
  rewrite assoc_set_ne by done. by apply store_opened_ne.
Qed.

Lemma installed_names s responses w :
  names (caches (installed s responses w)) =
  names (caches (opened (CACHE_NAME s) w)).
Proof. apply assoc_set_names. Qed.

Lemma install_failed_store_ne s w n :
  n ≠ CACHE_NAME s → store n (install_failed s w) = store n w.
Proof. intros Hne. by apply store_opened_ne. Qed.

Lemma on_install_store_ne env s w n :
  n ≠ CACHE_NAME s → store n (on_install env s w).2 = store n w.
Proof.
  intros Hne.
  destruct (on_install_cases env s w)
    as [(responses & _ & _ & ->)|(e & _ & ->)]; simpl.
  - by apply installed_store_ne.
  - by apply install_failed_store_ne.
Qed.

Lemma on_install_names env s w :
  names (caches (on_install env s w).2) =
  names (caches (opened (CACHE_NAME s) w)).
Proof.
  destruct (on_install_cases env s w)
    as [(responses & _ & _ & ->)|(e & _ & ->)]; simpl; [|done].
  apply installed_names.
Qed.

(** ** The fetch listener *)

Lemma on_fetch_hit env r w stored :
  storage_match r (caches w) = Some stored →
  on_fetch env r w = (Fulfilled stored, w).
Proof. intros Hhit. unfold on_fetch, then_, caches_match. by rewrite Hhit. Qed.

Lemma on_fetch_miss env r w :
  storage_match r (caches w) = None → on_fetch env r w = fetch env r w.
Proof. intros Hmiss. unfold on_fetch, then_, caches_match. by rewrite Hmiss. Qed.

Lemma on_fetch_caches env r w : caches (on_fetch env r w).2 = caches w.
Proof.
  destruct (storage_match r (caches w)) as [stored|] eqn:Hm.
  - by rewrite (on_fetch_hit _ _ _ _ Hm).
  - by rewrite (on_fetch_miss _ _ _ Hm).
Qed.

Lemma storage_match_non_GET r st : method r ≠ "GET" → storage_match r st = None.
Proof.
  intros Hm. induction st as [|[n c] st IH]; simpl; [done|].
  unfold cache_match. by rewrite decide_False.
Qed.

Lemma storage_match_store name c r stored st :
  assoc name st = Some c → cache_match r c = Some stored →
  is_Some (storage_match r st).
Proof.
  intros Hc Hm. induction st as [|[n c'] st IH]; simpl in *; [done|].
  destruct (cache_match r c') eqn:Hm'; [eauto|].
  case_decide; simplify_eq; auto.
Qed.

Lemma storage_match_elem r st stored :
  storage_match r st = Some stored →
  ∃ n c, (n, c) ∈ st ∧ cache_match r c = Some stored.
Proof.
  induction st as [|[n c] st IH]; simpl; [done|].
  destruct (cache_match r c) as [x|] eqn:Hm.
  - intros [= ->]. exists n, c. split; [left | done].
  - intros (n' & c' & ? & ?)%IH. exists n', c'. split; [by right | done].
Qed.

(** When no store but [name] has a match, the answer is the one of the
    store [name]. *)
Lemma storage_match_only name r st :
  NoDup (names st) →
  (∀ n c, (n, c) ∈ st → n ≠ name → cache_match r c = None) →
  storage_match r st = assoc name st ≫= cache_match r.
Proof.
  induction st as [|[n c] st IH]; simpl; [done|].
  intros [Hn Hnd]%NoDup_cons Hothers.
  assert (storage_match r st = assoc name st ≫= cache_match r) as Hrest.
  { apply IH; [done|]. intros n' c' Hin. apply Hothers. by right. }
  case_decide as Hname; simpl.
  - subst n. destruct (cache_match r c); [done|].
    rewrite Hrest.
    replace (assoc name st) with (@None Cache); [done|].
    symmetry. by apply assoc_None.
  - rewrite (Hothers n c); [done | left | done].
Qed.

(** ** Well-formed worlds: a name names one store, a URL keys one entry *)

Lemma wf_empty_world : wf_world empty_world.
Proof. split; constructor. Qed.

Lemma wf_store name c w : wf_world w → store name w = Some c → NoDup (names c).
Proof.
  intros [_ Hall] Hc%assoc_Some_elem.
  rewrite Forall_forall in Hall. apply (Hall _ Hc).
Qed.

Lemma batch_result_NoDup ops c :
  NoDup (names ops) → NoDup (names c) → NoDup (names (batch_result ops c)).
Proof.
  intros Hops Hc. rewrite batch_result_names. apply NoDup_app.
  split; [by apply NoDup_filter|]. split; [|done].
  by intros k [Hk _]%list_elem_of_filter.
Qed.

Lemma assoc_set_Forall {A} (P : string * A → Prop) k v (l : list (string * A)) :
  (∀ k', P (k', v)) → Forall P l → Forall P (assoc_set k v l).
Proof.
  intros Hv. induction 1 as [|[k' v'] l ? ? IH]; simpl; [constructor|].
  case_decide; constructor; auto.
Qed.

Lemma wf_opened name w : wf_world w → wf_world (opened name w).
Proof.
  intros [Hnames Hall].
  destruct (opened_cases name w) as [[_ ->]|[Hnone ->]]; [done|].
  split; simpl.
  - unfold names. rewrite fmap_app. apply NoDup_app.
    split; [done|]. split; [|apply NoDup_singleton].
    intros k Hk Hk'%list_elem_of_singleton. subst k.
    by apply assoc_None in Hnone.
  - apply Forall_app. split; [done|]. repeat constructor.
Qed.

Lemma wf_on_install env s w : wf_world w → wf_world (on_install env s w).2.
Proof.
  intros Hwf. pose proof (wf_opened (CACHE_NAME s) w Hwf) as [Hnames Hall].
  destruct (on_install_cases env s w)
    as [(responses & _ & (Hnd & _) & ->)|(e & _ & ->)]; simpl; [|done].
  split; simpl.
  - fold (names (caches (installed s responses w))).
    by rewrite assoc_set_names.
  - apply assoc_set_Forall; [|done]. intros k; simpl.
    apply batch_result_NoDup; [done|].
    destruct (store (CACHE_NAME s) w) as [c|] eqn:Hc; simpl.
    + by apply (wf_store _ _ _ Hwf Hc).
    + constructor.
Qed.

Lemma wf_dispatch env s sys ev :
  wf_world (world sys) → wf_world (world (dispatch env s sys ev)).
Proof.
  intros Hwf. unfold dispatch.
  destruct ev as [| |r], (phase sys); simpl; try done.
  - pose proof (wf_on_install env s (world sys) Hwf).
    by destruct (on_install env s (world sys)) as [[?|?] ?].
  - split; by rewrite on_fetch_caches; apply Hwf.
Qed.

Lemma wf_run env s evs sys :
  wf_world (world sys) → wf_world (world (run env s evs sys)).
Proof.
  unfold run. revert sys.
  induction evs as [|ev evs IH]; intros sys Hwf; simpl; [done|].
  by apply IH, wf_dispatch.
Qed.

(** ** Serving from the cache *)

Lemma serve_hits env rs w :
  Forall (λ r, is_Some (storage_match r (caches w))) rs →
  ∃ stored,
    Forall2 (λ r x, storage_match r (caches w) = Some x) rs stored ∧
    serve env rs w = (Fulfilled <$> stored, w).
Proof.
  induction 1 as [|r rs [x Hx] _ (stored & Hall & Hserve)]; simpl.
  - exists []. split; [constructor | done].
  - exists (x :: stored). split; [by constructor|].
    by rewrite (on_fetch_hit _ _ _ _ Hx), Hserve.
Qed.

Lemma installed_has_manifest env s w w1 u :
  on_install env s w = (Fulfilled (), w1) → u ∈ urlsToCache s →
  is_Some (storage_match (GET u) (caches w1)).
Proof.
  intros (responses & Hfetch & (Hnd & _) & ->)%on_install_fulfilled Hu.
  destruct (asset_in_batch _ _ _ _ Hfetch Hu) as (resp & _ & Hin).
  eapply (storage_match_store (CACHE_NAME s)).
  - apply installed_store_eq.
  - unfold cache_match; simpl. by apply batch_result_assoc.
Qed.

(** C1. A request that has a stored response is answered with that response
    as it is stored, and the world, the log of network requests included, is
    the one before the request.  So once the install promise is fulfilled, any
    sequence of GET requests for manifest URLs is answered from the stores
    and the network log stays what the install left. *)
Theorem fetch_hit_answers_from_cache (env0 env : Env) (s : Script) :
  (∀ r w stored,
      storage_match r (caches w) = Some stored →
      on_fetch env r w = (Fulfilled stored, w)) ∧
  (∀ w w1 rs,
      on_install env0 s w = (Fulfilled (), w1) →
      Forall (λ r, method r = "GET" ∧ url r ∈ urlsToCache s) rs →
      ∃ stored,
        Forall2 (λ r x, storage_match r (caches w1) = Some x) rs stored ∧
        serve env rs w1 = (Fulfilled <$> stored, w1)).
Proof.
  split; [apply on_fetch_hit|].
  intros w w1 rs Hinst Hrs. apply serve_hits.
  eapply Forall_impl; [exact Hrs|]. intros [m u] [Hm Hu]; simpl in *.
  subst m. by apply (installed_has_manifest env0 s w).
Qed.

Lemma fetch_hit_answers_from_cache_witness :
  on_fetch offline (GET "/home.png") (on_install online sw_js empty_world).2 =
    (Fulfilled (page "/home.png"), (on_install online sw_js empty_world).2) ∧
  ∃ stored,
    Forall2
      (λ r x,
         storage_match r (caches (on_install online sw_js empty_world).2)
           = Some x)
      [GET "/"; GET "/home.png"; GET "/"] stored ∧
    serve offline [GET "/"; GET "/home.png"; GET "/"]
      (on_install online sw_js empty_world).2 =
    (Fulfilled <$> stored, (on_install online sw_js empty_world).2).
Proof.
  split.
  - apply (proj1 (fetch_hit_answers_from_cache online offline sw_js)).
    reflexivity.
  - apply (proj2 (fetch_hit_answers_from_cache online offline sw_js)
             empty_world).
    + reflexivity.
    + repeat constructor; simpl; by_compute.
Defined.

(** ** Install is all or nothing *)

Lemma opened_caches_eq name w1 w2 :
  caches w1 = caches w2 → caches (opened name w1) = caches (opened name w2).
Proof.
  intros Heq. unfold opened, caches_open. rewrite Heq.
  by destruct (assoc name (caches w2)); simpl; rewrite ?Heq.
Qed.

Lemma never_live_dispatch env s u w sys ev :
  u ∈ urlsToCache s → asset_fails env u →
  never_live s w sys → never_live s w (dispatch env s sys ev).
Proof.
  intros Hu Hfails [[Hph Hc]|[Hph Hc]]; unfold dispatch; rewrite Hph.
  - destruct ev as [| |r]; simpl.
    + destruct (on_install_rejects env s (world sys) u Hu Hfails) as [e ->].
      right. split; [done|]. simpl. by apply opened_caches_eq.
    + left. done.
    + left. done.
  - destruct ev as [| |r]; simpl; right; done.
Qed.

Lemma never_live_run env s u w evs sys :
  u ∈ urlsToCache s → asset_fails env u →
  never_live s w sys → never_live s w (run env s evs sys).
Proof.
  intros Hu Hfails. unfold run. revert sys.
  induction evs as [|ev evs IH]; intros sys Hinv; simpl; [done|].
  apply IH. by apply (never_live_dispatch env s u).
Qed.

(** C2. When fetching or storing one manifest URL fails, the install promise
    is rejected and the stores are what [caches.open] left: the store of the
    tag is the one that was there, or a new empty one, all others are
    untouched.  Whatever events follow, the worker is never active, and its
    store is never written. *)
Theorem install_all_or_nothing (env : Env) (s : Script) (u : string)
    (w : World) (evs : list Event) :
  u ∈ urlsToCache s → asset_fails env u →
  (∃ e, on_install env s w = (Rejected e, install_failed s w)) ∧
  store (CACHE_NAME s) (install_failed s w) =
    Some (default [] (store (CACHE_NAME s) w)) ∧
  (∀ n, n ≠ CACHE_NAME s → store n (install_failed s w) = store n w) ∧
  let sys := run env s evs {| world := w; phase := Unregistered |} in
  phase sys ≠ Active ∧
  (caches (world sys) = caches w ∨
   caches (world sys) = caches (install_failed s w)).
Proof.
  intros Hu Hfails. split; [by apply (on_install_rejects env s w u)|].
  split; [apply store_opened_eq|].
  split; [intros n Hn; by apply install_failed_store_ne|].
  cbv zeta.
  assert (never_live s w
            (run env s evs {| world := w; phase := Unregistered |}))
    as [[Hph Hc]|[Hph Hc]].
  { apply (never_live_run env s u); [done | done | by left]. }
  - rewrite Hph. split; [done | by left].
  - rewrite Hph. split; [done | by right].
Qed.

Lemma install_all_or_nothing_witness :
  (∃ e, on_install join_missing sw_js empty_world =
          (Rejected e, install_failed sw_js empty_world)) ∧
  store "dwellable-v1" (install_failed sw_js empty_world) = Some [] ∧
  phase (run join_missing sw_js [Install; Activate; Fetch (GET "/")]
           {| world := empty_world; phase := Unregistered |}) ≠ Active.
Proof.
  destruct (install_all_or_nothing join_missing sw_js "/join.html" empty_world
              [Install; Activate; Fetch (GET "/")])
    as (Hrej & Hstore & _ & Hph & _).
  - by_compute.
  - unfold asset_fails. simpl. exact I.
  - split; [exact Hrej|]. split; [exact Hstore | exact Hph].
Defined.

(** ** Misses go to the network *)

Lemma dispatch_fetch_caches env s sys r :
  caches (world (dispatch env s sys (Fetch r))) = caches (world sys).
Proof.
  unfold dispatch. destruct (phase sys); simpl; try done.
  apply on_fetch_caches.
Qed.

(** C3. A request with no stored response is sent to the network once and
    answered with what the network gave, whatever its status; the stores are
    not written, so the request still has no stored response afterwards.
    No fetch event, hit or miss, changes the stores. *)
Theorem fetch_miss_passes_through (env : Env) (s : Script) (r : Request)
    (w : World) :
  storage_match r (caches w) = None →
  on_fetch env r w =
    (settle (network env r),
     {| caches := caches w; net_log := net_log w ++ [r] |}) ∧
  storage_match r (caches (on_fetch env r w).2) = None ∧
  (∀ r' w', caches (on_fetch env r' w').2 = caches w') ∧
  (∀ r' sys,
      caches (world (dispatch env s sys (Fetch r'))) = caches (world sys)).
Proof.
  intros Hmiss. split; [by rewrite on_fetch_miss|].
  split; [by rewrite on_fetch_caches|].
  split; [apply on_fetch_caches | intros r' sys; apply dispatch_fetch_caches].
Qed.

Lemma fetch_miss_passes_through_witness :
  on_fetch online (GET "/b.png") (on_install online sw_js empty_world).2 =
    (Fulfilled (page "/b.png"),
     {| caches := caches (on_install online sw_js empty_world).2;
        net_log :=
          net_log (on_install online sw_js empty_world).2
            ++ [GET "/b.png"] |}) ∧
  storage_match (GET "/b.png")
    (caches (on_fetch online (GET "/b.png")
               (on_install online sw_js empty_world).2).2) = None.
Proof.
  destruct (fetch_miss_passes_through online sw_js (GET "/b.png")
              (on_install online sw_js empty_world).2)
    as (Hanswer & Hstill & _).
  - reflexivity.
  - split; [exact Hanswer | exact Hstill].
Defined.

(** C5. On a miss with the network down, the page gets the rejection of
    [fetch] itself: the listener's promise is the promise of one bare
    [fetch], there is one request in the log and no response is made up. *)
Theorem fetch_miss_network_error (env : Env) (r : Request) (w : World) :
  storage_match r (caches w) = None →
  network env r = None →
  on_fetch env r w = fetch env r w ∧
  on_fetch env r w =
    (Rejected NetworkError,
     {| caches := caches w; net_log := net_log w ++ [r] |}).
Proof.
  intros Hmiss Hdown. rewrite on_fetch_miss by done.
  split; [done|]. unfold fetch. by rewrite Hdown.
Qed.

Lemma fetch_miss_network_error_witness :
  on_fetch offline (GET "/b.png") (on_install online sw_js empty_world).2 =
    fetch offline (GET "/b.png") (on_install online sw_js empty_world).2 ∧
  on_fetch offline (GET "/b.png") (on_install online sw_js empty_world).2 =
    (Rejected NetworkError,
     {| caches := caches (on_install online sw_js empty_world).2;
        net_log :=
          net_log (on_install online sw_js empty_world).2
            ++ [GET "/b.png"] |}).
Proof.
  apply (fetch_miss_network_error offline (GET "/b.png")
           (on_install online sw_js empty_world).2); reflexivity.
Defined.

(** C9. A request whose method is not GET has no match in any store,
    whatever the stores hold, so the listener's promise is the promise of a
    bare [fetch]. *)
Theorem fetch_non_GET_goes_to_network (env : Env) (r : Request) (w : World) :
  method r ≠ "GET" →
  storage_match r (caches w) = None ∧
  on_fetch env r w = fetch env r w ∧
  on_fetch env r w =
    (settle (network env r),
     {| caches := caches w; net_log := net_log w ++ [r] |}).
Proof.
  intros Hm. pose proof (storage_match_non_GET r (caches w) Hm) as Hmiss.
  split; [done|]. by rewrite on_fetch_miss.
Qed.

Lemma fetch_non_GET_goes_to_network_witness :
  on_fetch online {| method := "POST"; url := "/index.html" |}
    (on_install online sw_js empty_world).2 =
  fetch online {| method := "POST"; url := "/index.html" |}
    (on_install online sw_js empty_world).2.
Proof.
  apply (fetch_non_GET_goes_to_network online
           {| method := "POST"; url := "/index.html" |}
           (on_install online sw_js empty_world).2).
  simpl. discriminate.
Defined.

(** ** Which store answers *)

(** C4, as stated, fails: with the store of an earlier generation still
    there, the listener answers [/index.html] with the earlier generation's
    response, not with the one in the store of the current tag. *)
Lemma fetch_lookup_not_current_only :
  on_fetch offline (GET "/index.html") two_generations =
    (Fulfilled (page "v0 /index.html"), two_generations) ∧
  on_fetch_current_store offline sw_js (GET "/index.html") two_generations =
    (Fulfilled (page "/index.html"), two_generations) ∧
  on_fetch offline (GET "/index.html") two_generations ≠
    on_fetch_current_store offline sw_js (GET "/index.html") two_generations.
Proof.
  split; [reflexivity|]. split; [reflexivity|].
  vm_compute. intros [=].
Qed.

Lemma storage_match_first r (before after : CacheStorage) n c stored :
  Forall (λ e, cache_match r e.2 = None) before →
  cache_match r c = Some stored →
  storage_match r (before ++ (n, c) :: after) = Some stored.
Proof.
  intros Hbefore Hc.
  induction Hbefore as [|[n' c'] before Hnone _ IH]; simpl in *.
  - by rewrite Hc.
  - by rewrite Hnone.
Qed.

Lemma storage_match_nowhere r (st : CacheStorage) :
  Forall (λ e, cache_match r e.2 = None) st → storage_match r st = None.
Proof.
  induction 1 as [|[n c] st Hnone _ IH]; simpl in *; [done|].
  by rewrite Hnone.
Qed.

(** C4, amended. The listener asks all the stores of the origin, in creation
    order, and answers with the first match, whatever the name of the store:
    when a store has a match and no store created before it has one, the
    answer is that store's response, whatever the stores created after it
    hold; when no store has a match the request goes to the network.  When
    no store under another name has a match for the request, this is the
    lookup in the store of the current tag. *)
Theorem fetch_lookup_first_match (env : Env) (s : Script) (r : Request)
    (w : World) :
  (∀ before n c after stored,
      caches w = before ++ (n, c) :: after →
      Forall (λ e, cache_match r e.2 = None) before →
      cache_match r c = Some stored →
      on_fetch env r w = (Fulfilled stored, w)) ∧
  (Forall (λ e, cache_match r e.2 = None) (caches w) →
   on_fetch env r w = fetch env r w) ∧
  on_fetch env r w =
    match storage_match r (caches w) with
    | Some stored => (Fulfilled stored, w)
    | None => fetch env r w
    end ∧
  (wf_world w →
   (∀ n c, (n, c) ∈ caches w → n ≠ CACHE_NAME s → cache_match r c = None) →
   on_fetch env r w = on_fetch_current_store env s r w).
Proof.
  assert (on_fetch env r w =
          match storage_match r (caches w) with
          | Some stored => (Fulfilled stored, w)
          | None => fetch env r w
          end) as Hall.
  { destruct (storage_match r (caches w)) eqn:Hm.
    - by apply on_fetch_hit.
    - by apply on_fetch_miss. }
  split; [|split; [|split; [done|]]].
  - intros before n c after stored Hw Hbefore Hc.
    apply on_fetch_hit. rewrite Hw. by apply storage_match_first.
  - intros Hnone. by apply on_fetch_miss, storage_match_nowhere.
  - intros [Hnames _] Hothers.
    rewrite Hall. unfold on_fetch_current_store, store.
    by rewrite (storage_match_only (CACHE_NAME s)).
Qed.

Lemma fetch_lookup_first_match_witness :
  on_fetch offline (GET "/index.html") two_generations =
    (Fulfilled (page "v0 /index.html"), two_generations) ∧
  store "dwellable-v1" two_generations ≫= cache_match (GET "/index.html") =
    Some (page "/index.html") ∧
  on_fetch offline (GET "/home.png") two_generations =
    on_fetch_current_store offline sw_js (GET "/home.png") two_generations.
Proof.
  split; [|split; [reflexivity|]].
  - apply (proj1 (fetch_lookup_first_match offline sw_js (GET "/index.html")
                    two_generations)
             [] "dwellable-v0" [("/index.html", page "v0 /index.html")]
             (drop 1 (caches two_generations))).
    + reflexivity.
    + constructor.
    + reflexivity.
  - apply (proj2 (proj2 (proj2 (fetch_lookup_first_match offline sw_js
                                  (GET "/home.png") two_generations)))).
    + split; by_compute.
    + intros n c Hin Hn. vm_compute in Hin.
      apply elem_of_cons in Hin as [Hin|Hin]; [by simplify_eq|].
      apply elem_of_cons in Hin as [Hin|Hin]; [by simplify_eq|].
      by apply elem_of_nil in Hin.
Defined.

(** ** Installing again *)

Lemma filter_not_elem_self {A} `{EqDecision A} (l : list A) :
  filter (λ x, x ∉ l) l = [].
Proof.
  destruct (filter (λ x, x ∉ l) l) as [|x k] eqn:Hf; [done|].
  assert (x ∈ filter (λ x, x ∉ l) l) as [Hx Hin]%list_elem_of_filter
    by (rewrite Hf; left).
  done.
Qed.

Lemma batch_result_absorb ops c :
  batch_result ops (batch_result ops c) = batch_result ops c.
Proof.
  unfold batch_result at 1 3. f_equal.
  unfold batch_result. rewrite filter_app, list_filter_filter_l by done.
  replace (filter _ ops) with (@nil (string * Response));
    [by rewrite app_nil_r|].
  symmetry.
  destruct (filter (λ e, e.1 ∉ names ops) ops) as [|[k v] l] eqn:Hf; [done|].
  assert ((k, v) ∈ filter (λ e, e.1 ∉ names ops) ops)
    as [Hk Hin]%list_elem_of_filter by (rewrite Hf; left).
  exfalso. apply Hk. apply list_elem_of_fmap. by exists (k, v).
Qed.

Lemma assoc_set_id {A} k (v : A) l : assoc k l = Some v → assoc_set k v l = l.
Proof.
  induction l as [|[k' v'] l IH]; simpl; [done|].
  case_decide; intros ?; simplify_eq; [done|]. by rewrite IH.
Qed.

Lemma opened_existing name w : is_Some (store name w) → opened name w = w.
Proof.
  intros [c Hc].
  destruct (opened_cases name w) as [[_ ?]|[Hnone _]]; [done | congruence].
Qed.

Lemma on_install_store_is_Some env s w :
  is_Some (store (CACHE_NAME s) (on_install env s w).2).
Proof.
  destruct (on_install_cases env s w)
    as [(responses & _ & _ & ->)|(e & _ & ->)]; simpl.
  - by rewrite installed_store_eq.
  - unfold install_failed, store; simpl.
    fold (store (CACHE_NAME s) (opened (CACHE_NAME s) w)).
    by rewrite store_opened_eq.
Qed.

(** C6. After a fulfilled install, a second install of the same script, with
    every manifest URL again fetched and stored, is fulfilled as well.  The
    store then has the same URLs in the same order as after the first, the
    origin has the same stores, and the store has no URL twice when the
    stores had none before.  When the network gives the same responses the
    stores are exactly the same. *)
Theorem install_twice_same_keys (env1 env2 : Env) (s : Script)
    (w0 w1 : World) :
  on_install env1 s w0 = (Fulfilled (), w1) →
  (∀ u, u ∈ urlsToCache s → ¬ asset_fails env2 u) →
  ∃ w2,
    on_install env2 s w1 = (Fulfilled (), w2) ∧
    stored_urls (CACHE_NAME s) w2 = stored_urls (CACHE_NAME s) w1 ∧
    names (caches w2) = names (caches w1) ∧
    (wf_world w0 → NoDup (stored_urls (CACHE_NAME s) w2)) ∧
    ((∀ u, u ∈ urlsToCache s → addAll_fetch env2 u = addAll_fetch env1 u) →
     caches w2 = caches w1).
Proof.
  intros Hfirst Hnet2.
  pose proof Hfirst as
    (resp1 & Hfetch1 & (Hnd1 & _) & ->)%on_install_fulfilled.
  pose proof (length_mapM _ _ _ Hfetch1) as Hlen1.
  assert (NoDup (urlsToCache s)) as Hnd by by rewrite zip_names in Hnd1.
  destruct (on_install_succeeds env2 s (installed s resp1 w0) Hnd Hnet2)
    as (resp2 & Hfetch2 & Hsecond).
  pose proof (length_mapM _ _ _ Hfetch2) as Hlen2.
  exists (installed s resp2 (installed s resp1 w0)).
  split; [done|].
  assert (is_Some (store (CACHE_NAME s) (installed s resp1 w0))) as Hthere
    by by rewrite installed_store_eq.
  split; [|split; [|split]].
  - unfold stored_urls. rewrite !installed_store_eq; simpl.
    rewrite !batch_result_names, !zip_names by done.
    rewrite filter_app, list_filter_filter_l by done.
    by rewrite filter_not_elem_self, app_nil_r.
  - by rewrite installed_names, opened_existing.
  - intros Hwf.
    pose proof (wf_on_install env2 s _
                  (wf_on_install env1 s w0 Hwf)) as Hwf2.
    rewrite Hfirst in Hwf2; simpl in Hwf2.
    rewrite Hsecond in Hwf2; simpl in Hwf2.
    unfold stored_urls. rewrite installed_store_eq; simpl.
    eapply wf_store; [exact Hwf2 | apply installed_store_eq].
  - intros Hsame.
    assert (resp2 = resp1) as ->.
    { rewrite (Forall_mapM_ext _ (addAll_fetch env1)) in Hfetch2.
      - congruence.
      - apply Forall_forall. exact Hsame. }
    unfold installed at 1; simpl.
    rewrite opened_existing by done.
    rewrite installed_store_eq; simpl.
    rewrite batch_result_absorb.
    apply assoc_set_id, installed_store_eq.
Qed.

Lemma install_twice_same_keys_witness :
  ∃ w2,
    on_install online sw_js (on_install online sw_js empty_world).2 =
      (Fulfilled (), w2) ∧
    stored_urls "dwellable-v1" w2 = urlsToCache sw_js ∧
    caches w2 = caches (on_install online sw_js empty_world).2.
Proof.
  destruct (install_twice_same_keys online online sw_js empty_world
              (on_install online sw_js empty_world).2)
    as (w2 & Hsecond & Hurls & _ & _ & Hsame).
  - reflexivity.
  - intros u _ Hfails. unfold asset_fails in Hfails. simpl in Hfails.
    discriminate.
  - exists w2. split; [exact Hsecond|]. split; [exact Hurls|].
    apply Hsame. reflexivity.
Defined.

(** ** Generations *)

Lemma caches_delete_store_ne name n w :
  n ≠ name → store n (caches_delete name w).2 = store n w.
Proof. intros Hne. unfold store, caches_delete; simpl. by apply assoc_filter_ne. Qed.

Lemma caches_delete_store_eq name w : store name (caches_delete name w).2 = None.
Proof.
  unfold store, caches_delete; simpl. apply assoc_None. unfold names.
  intros ([k c] & -> & [Hk _]%list_elem_of_filter)%list_elem_of_fmap.
  done.
Qed.

Lemma caches_delete_net_log name w : net_log (caches_delete name w).2 = net_log w.
Proof. done. Qed.

(** C7. Two scripts with different tags have two stores: after both were
    installed, both stores are there.  Installing either script leaves the
    store of the other tag as it was, and deleting the store of one tag
    removes that store and leaves the other as it was. *)
Theorem generations_isolated (env1 env2 : Env) (s1 s2 : Script) (w : World) :
  CACHE_NAME s1 ≠ CACHE_NAME s2 →
  let w1 := (on_install env1 s1 w).2 in
  let w12 := (on_install env2 s2 w1).2 in
  is_Some (store (CACHE_NAME s1) w12) ∧
  is_Some (store (CACHE_NAME s2) w12) ∧
  store (CACHE_NAME s2) w1 = store (CACHE_NAME s2) w ∧
  store (CACHE_NAME s1) w12 = store (CACHE_NAME s1) w1 ∧
  store (CACHE_NAME s1) (caches_delete (CACHE_NAME s1) w12).2 = None ∧
  store (CACHE_NAME s2) (caches_delete (CACHE_NAME s1) w12).2 =
    store (CACHE_NAME s2) w12.
Proof.
  intros Hne w1 w12.
  assert (store (CACHE_NAME s1) w12 = store (CACHE_NAME s1) w1) as Hkept
    by by apply on_install_store_ne.
  split; [rewrite Hkept; apply on_install_store_is_Some|].
  split; [apply on_install_store_is_Some|].
  split; [by apply on_install_store_ne|].
  split; [done|].
  split; [apply caches_delete_store_eq|].
  by apply caches_delete_store_ne.
Qed.

Lemma generations_isolated_witness :
  store "dwellable-v0" two_generations =
    store "dwellable-v0" (on_install earlier_release sw_v0 empty_world).2 ∧
  store "dwellable-v1" (caches_delete "dwellable-v0" two_generations).2 =
    store "dwellable-v1" two_generations.
Proof.
  destruct (generations_isolated earlier_release online sw_v0 sw_js
              empty_world)
    as (_ & _ & _ & Hkept & _ & Hother).
  - simpl. discriminate.
  - split; [exact Hkept | exact Hother].
Defined.

Lemma opened_names_prefix name w :
  names (caches w) `prefix_of` names (caches (opened name w)).
Proof.
  destruct (opened_cases name w) as [[_ ->]|[_ ->]]; simpl; [done|].
  unfold names. rewrite fmap_app. by apply prefix_app_r.
Qed.

Lemma dispatch_store_ne env s sys ev n :
  n ≠ CACHE_NAME s →
  store n (world (dispatch env s sys ev)) = store n (world sys).
Proof.
  intros Hne. unfold dispatch.
  destruct ev as [| |r], (phase sys); simpl; try done.
  - pose proof (on_install_store_ne env s (world sys) n Hne) as Hkept.
    by destruct (on_install env s (world sys)) as [[?|?] ?].
  - unfold store. by rewrite on_fetch_caches.
Qed.

Lemma dispatch_names_prefix env s sys ev :
  names (caches (world sys))
    `prefix_of` names (caches (world (dispatch env s sys ev))).
Proof.
  unfold dispatch.
  destruct ev as [| |r], (phase sys); simpl; try done.
  - pose proof (on_install_names env s (world sys)) as Hnames.
    pose proof (opened_names_prefix (CACHE_NAME s) (world sys)) as Hpre.
    destruct (on_install env s (world sys)) as [[?|?] ?]; simpl in *;
      by rewrite Hnames.
  - by rewrite on_fetch_caches.
Qed.

(** C8. No event makes the worker delete or change a store under another
    name: over any sequence of install, activate and fetch events, a store
    whose name is not the script's tag is what it was, and the names of the
    stores that were there stay, in their order, at the front of the names
    of the stores. *)
Theorem old_generations_never_reaped (env : Env) (s : Script)
    (evs : list Event) (sys : System) (n : string) :
  n ≠ CACHE_NAME s →
  store n (world (run env s evs sys)) = store n (world sys) ∧
  names (caches (world sys))
    `prefix_of` names (caches (world (run env s evs sys))).
Proof.
  intros Hne. unfold run. revert sys.
  induction evs as [|ev evs IH]; intros sys; simpl; [done|].
  destruct (IH (dispatch env s sys ev)) as [Hstore Hpre].
  split.
  - by rewrite Hstore, dispatch_store_ne.
  - etrans; [apply dispatch_names_prefix | exact Hpre].
Qed.

Lemma old_generations_never_reaped_witness :
  store "dwellable-v0"
    (world (run online sw_js
              [Install; Activate; Fetch (GET "/"); Fetch (GET "/b.png")]
              {| world := (on_install earlier_release sw_v0 empty_world).2;
                 phase := Unregistered |})) =
  Some [("/index.html", page "v0 /index.html")].
Proof.
  refine (proj1 (old_generations_never_reaped online sw_js
            [Install; Activate; Fetch (GET "/"); Fetch (GET "/b.png")]
            {| world := (on_install earlier_release sw_v0 empty_world).2;
               phase := Unregistered |} "dwellable-v0" _)).
  simpl. discriminate.
Defined.

(** ** The variants the build scripts write *)

Lemma reinstall_same_tag_names env1 env2 a b w :
  CACHE_NAME a = CACHE_NAME b →
  names (caches (on_install env2 b (on_install env1 a w).2).2) =
  names (caches (on_install env1 a w).2).
Proof.
  intros Htag. rewrite on_install_names, opened_existing; [done|].
  rewrite <- Htag. apply on_install_store_is_Some.
Qed.

Lemma assoc_filter_other {A} (ks : list string) u (l : list (string * A)) :
  u ∉ ks → assoc u (filter (λ e, e.1 ∉ ks) l) = assoc u l.
Proof.
  intros Hu. induction l as [|[k v] l IH]; [done|].
  rewrite filter_cons; simpl.
  destruct (decide (k ∉ ks)) as [Hk|Hk]; simpl; case_decide; subst;
    done.
Qed.

Lemma batch_result_other ops (c : Cache) u :
  u ∉ names ops → assoc u (batch_result ops c) = assoc u c.
Proof.
  intros Hu. unfold batch_result. rewrite assoc_app, assoc_filter_other by done.
  destruct (assoc u c); [done|]. by apply assoc_None.
Qed.

(** What a fulfilled install leaves in the store of its tag: for a manifest
    URL the response of this install, for any other URL what was there. *)
Lemma on_install_fulfilled_store env s w w1 :
  on_install env s w = (Fulfilled (), w1) →
  (∀ u, u ∈ urlsToCache s →
        ∃ resp, network env (GET u) = Some resp ∧
                store (CACHE_NAME s) w1 ≫= cache_match (GET u) = Some resp) ∧
  (∀ u, u ∉ urlsToCache s →
        store (CACHE_NAME s) w1 ≫= cache_match (GET u) =
        assoc u (default [] (store (CACHE_NAME s) w))).
Proof.
  intros (responses & Hfetch & (Hnd & _) & ->)%on_install_fulfilled.
  pose proof (length_mapM _ _ _ Hfetch) as Hlen.
  rewrite installed_store_eq; simpl. unfold cache_match; simpl. split.
  - intros u Hu.
    destruct (asset_in_batch _ _ _ _ Hfetch Hu) as (resp & Hresp & Hin).
    exists resp. split; [|by apply batch_result_assoc].
    unfold addAll_fetch in Hresp.
    destruct (network env (GET u)) as [resp'|]; [|done].
    by destruct (ok_status (status resp')); simplify_eq.
  - intros u Hu. apply batch_result_other. by rewrite zip_names.
Qed.

(** C10. The three variants have the tag [dwellable-v1] and three different
    manifests.  So installing one variant after another opens the store the
    first one filled: no store is added.  When every URL of the second
    manifest can be fetched and stored, the second install is fulfilled and
    fills that same store: it then holds the URLs the first left that are
    not in the second manifest, with the responses they had, followed by
    the second manifest, with the responses of the second install. *)
Theorem variants_share_one_store :
  Forall (λ s, CACHE_NAME s = "dwellable-v1") variants ∧
  NoDup (urlsToCache <$> variants) ∧
  ∀ env1 env2 a b w,
    a ∈ variants → b ∈ variants →
    let w1 := (on_install env1 a w).2 in
    names (caches (on_install env2 b w1).2) = names (caches w1) ∧
    (∀ w2, on_install env2 b w1 = (Fulfilled (), w2) →
      stored_urls "dwellable-v1" w2 =
      filter (λ u, u ∉ urlsToCache b) (stored_urls "dwellable-v1" w1)
        ++ urlsToCache b) ∧
    ((∀ u, u ∈ urlsToCache b → ¬ asset_fails env2 u) →
     ∃ w2,
       on_install env2 b w1 = (Fulfilled (), w2) ∧
       stored_urls "dwellable-v1" w2 =
         filter (λ u, u ∉ urlsToCache b) (stored_urls "dwellable-v1" w1)
           ++ urlsToCache b ∧
       (∀ u, u ∈ urlsToCache b →
             ∃ resp, network env2 (GET u) = Some resp ∧
                     store "dwellable-v1" w2 ≫= cache_match (GET u)
                       = Some resp) ∧
       (∀ u, u ∉ urlsToCache b →
             store "dwellable-v1" w2 ≫= cache_match (GET u) =
             store "dwellable-v1" w1 ≫= cache_match (GET u))).
Proof.
  assert (Forall (λ s, CACHE_NAME s = "dwellable-v1") variants) as Htags
    by (repeat constructor).
  assert (Forall (λ s, NoDup (urlsToCache s)) variants) as Hnodup
    by by_compute.
  split; [done|]. split; [by_compute|].
  intros env1 env2 a b w Ha Hb w1.
  rewrite Forall_forall in Htags. rewrite Forall_forall in Hnodup.
  pose proof (Htags a Ha) as Htag_a. pose proof (Htags b Hb) as Htag_b.
  assert (∀ w2, on_install env2 b w1 = (Fulfilled (), w2) →
            stored_urls "dwellable-v1" w2 =
            filter (λ u, u ∉ urlsToCache b) (stored_urls "dwellable-v1" w1)
              ++ urlsToCache b) as Hurls.
  { intros w2 (responses & Hfetch & _ & ->)%on_install_fulfilled.
    pose proof (length_mapM _ _ _ Hfetch) as Hlen.
    unfold stored_urls. rewrite <- Htag_b at 1.
    rewrite installed_store_eq; simpl.
    rewrite batch_result_names, zip_names by done.
    by rewrite Htag_b. }
  split; [apply reinstall_same_tag_names; congruence|].
  split; [done|].
  intros Hnet.
  destruct (on_install_succeeds env2 b w1 (Hnodup b Hb) Hnet)
    as (responses & _ & Hsecond).
  exists (installed b responses w1).
  split; [done|]. split; [by apply Hurls|].
  destruct (on_install_fulfilled_store env2 b w1 _ Hsecond)
    as [Hfresh Hkept].
  rewrite Htag_b in Hfresh, Hkept. split; [done|].
  intros u Hu. rewrite (Hkept u Hu).
  assert (is_Some (store "dwellable-v1" w1)) as [c Hc].
  { rewrite <- Htag_a. apply on_install_store_is_Some. }
  rewrite Hc; simpl. unfold cache_match; simpl. done.
Qed.

Lemma variants_share_one_store_witness :
  names (caches (on_install online optimize_local.createServiceWorker
                   (on_install online sw_js empty_world).2).2) =
    ["dwellable-v1"] ∧
  ∃ w2,
    on_install online optimize_local.createServiceWorker
      (on_install online sw_js empty_world).2 = (Fulfilled (), w2) ∧
    stored_urls "dwellable-v1" w2 =
      ["/index.html"; "/join.html"; "/home.png"; "/reminders.png";
       "/property_info.png"; "/inspection.png";
       "/"; "/index.min.html"; "/home.webp"; "/reminders.webp";
       "/property_info.webp"; "/inspection.webp"] ∧
    store "dwellable-v1" w2 ≫= cache_match (GET "/home.webp") =
      Some (page "/home.webp") ∧
    store "dwellable-v1" w2 ≫= cache_match (GET "/join.html") =
      Some (page "/join.html").
Proof.
  destruct (proj2 (proj2 variants_share_one_store) online online
              sw_js optimize_local.createServiceWorker empty_world)
    as (Hnames & _ & Hfill); [by_compute | by_compute |].
  split; [exact Hnames|].
  destruct Hfill as (w2 & Hsecond & Hurls & Hfresh & Hkept).
  { intros u _ Hfails. unfold asset_fails in Hfails. simpl in Hfails.
    discriminate. }
  exists w2. split; [exact Hsecond|]. split; [exact Hurls|]. split.
  - destruct (Hfresh "/home.webp") as (resp & Hnet & Hstored); [by_compute|].
    rewrite Hstored. by injection Hnet as <-.
  - rewrite (Hkept "/join.html") by by_compute. reflexivity.
Defined.

(** ** More on the two listeners: what install stores, what is never dropped *)

(** X1. A fulfilled install leaves, for every manifest URL, the response the
    network gave during this install in the store of the tag, whatever the
    store held for the URL before. *)
Theorem install_stores_fresh_responses (env : Env) (s : Script)
    (w w1 : World) (u : string) :
  on_install env s w = (Fulfilled (), w1) →
  u ∈ urlsToCache s →
  ∃ c resp,
    store (CACHE_NAME s) w1 = Some c ∧
    addAll_fetch env u = Some resp ∧
    network env (GET u) = Some resp ∧
    cache_match (GET u) c = Some resp.
Proof.
  intros (responses & Hfetch & (Hnd & _) & ->)%on_install_fulfilled Hu.
  destruct (asset_in_batch _ _ _ _ Hfetch Hu) as (resp & Hresp & Hin).
  eexists _, resp. split; [apply installed_store_eq|].
  split; [done|]. split.
  - unfold addAll_fetch in Hresp.
    destruct (network env (GET u)) as [resp'|]; [|done].
    by destruct (ok_status (status resp')); simplify_eq.
  - unfold cache_match; simpl. by apply batch_result_assoc.
Qed.

Lemma install_stores_fresh_responses_witness :
  ∃ c resp,
    store "dwellable-v1" (on_install online sw_js two_generations).2 = Some c ∧
    addAll_fetch online "/index.html" = Some resp ∧
    network online (GET "/index.html") = Some resp ∧
    cache_match (GET "/index.html") c = Some resp.
Proof.
  apply (install_stores_fresh_responses online sw_js two_generations
           (on_install online sw_js two_generations).2 "/index.html").
  - reflexivity.
  - by_compute.
Defined.

Lemma batch_result_keeps ops (c : Cache) u :
  u ∈ names c → u ∈ names (batch_result ops c).
Proof.
  intros Hu. rewrite batch_result_names. apply elem_of_app.
  destruct (decide (u ∈ names ops)); [by right | left].
  by apply list_elem_of_filter.
Qed.

Lemma on_install_keeps_urls env s w n u :
  u ∈ stored_urls n w → u ∈ stored_urls n (on_install env s w).2.
Proof.
  unfold stored_urls. intros Hu.
  destruct (decide (n = CACHE_NAME s)) as [->|Hne].
  - destruct (on_install_cases env s w)
      as [(responses & _ & _ & ->)|(e & _ & ->)]; simpl.
    + rewrite installed_store_eq; simpl. by apply batch_result_keeps.
    + unfold install_failed, store at 1; simpl.
      fold (store (CACHE_NAME s) (opened (CACHE_NAME s) w)).
      by rewrite store_opened_eq.
  - by rewrite on_install_store_ne.
Qed.

Lemma dispatch_keeps_urls env s sys ev n u :
  u ∈ stored_urls n (world sys) →
  u ∈ stored_urls n (world (dispatch env s sys ev)).
Proof.
  intros Hu. unfold dispatch.
  destruct ev as [| |r], (phase sys); simpl; try done.
  - pose proof (on_install_keeps_urls env s (world sys) n u Hu) as Hkept.
    by destruct (on_install env s (world sys)) as [[?|?] ?].
  - unfold stored_urls, store. by rewrite on_fetch_caches.
Qed.

(** X2. Nothing is ever evicted: over any sequence of install, activate and
    fetch events, a URL that a store holds is still held by the store of
    that name. *)
Theorem stored_urls_never_evicted (env : Env) (s : Script)
    (evs : list Event) (sys : System) (n u : string) :
  u ∈ stored_urls n (world sys) →
  u ∈ stored_urls n (world (run env s evs sys)).
Proof.
  unfold run. revert sys.
  induction evs as [|ev evs IH]; intros sys Hu; simpl; [done|].
  by apply IH, dispatch_keeps_urls.
Qed.

Lemma stored_urls_never_evicted_witness :
  "/index.html" ∈
    stored_urls "dwellable-v1"
      (world (run online optimize_local.createServiceWorker
                [Install; Activate; Fetch (GET "/index.html")]
                {| world := (on_install online sw_js empty_world).2;
                   phase := Unregistered |})).
Proof.
  apply (stored_urls_never_evicted online optimize_local.createServiceWorker
           [Install; Activate; Fetch (GET "/index.html")]
           {| world := (on_install online sw_js empty_world).2;
              phase := Unregistered |}).
  by_compute.
Defined.

Lemma storage_match_is_Some r (st : CacheStorage) :
  is_Some (storage_match r st) ↔
  method r = "GET" ∧ ∃ n c, (n, c) ∈ st ∧ url r ∈ names c.
Proof.
  split.
  - intros [stored (n & c & Hin & Hm)%storage_match_elem].
    unfold cache_match in Hm. case_decide as Hget; [|done].
    split; [done|]. exists n, c. split; [done|].
    destruct (decide (url r ∈ names c)) as [|Hnot]; [done|].
    apply assoc_None in Hnot. congruence.
  - intros [Hget (n & c & Hin & Hu)].
    induction st as [|[n' c'] st IH]; [by apply elem_of_nil in Hin|].
    simpl. destruct (cache_match r c') as [x|] eqn:Hm; [eauto|].
    apply elem_of_cons in Hin as [Heq|Hin]; [|by apply IH].
    simplify_eq. unfold cache_match in Hm. rewrite decide_True in Hm by done.
    by apply assoc_None in Hm.
Qed.

Lemma assoc_set_elem {A} k (v : A) (l : list (string * A)) n x :
  (n, x) ∈ l →
  (n, x) ∈ assoc_set k v l ∨
  (n = k ∧ assoc k l = Some x ∧ (k, v) ∈ assoc_set k v l).
Proof.
  induction l as [|[k' v'] l IH]; simpl; [by intros ?%elem_of_nil|].
  intros [Heq|Hin]%elem_of_cons.
  - simplify_eq. case_decide; subst.
    + right. split; [done|]. split; [done | left].
    + left. left.
  - case_decide; subst.
    + left. by right.
    + destruct (IH Hin) as [?|(-> & ? & ?)].
      * left. by right.
      * right. split; [done|]. split; [done | by right].
Qed.

Lemma on_install_keeps_match env s w r :
  is_Some (storage_match r (caches w)) →
  is_Some (storage_match r (caches (on_install env s w).2)).
Proof.
  rewrite !storage_match_is_Some. intros [Hget (n & c & Hin & Hu)].
  split; [done|].
  assert ((n, c) ∈ caches (opened (CACHE_NAME s) w)) as Hin'.
  { destruct (opened_cases (CACHE_NAME s) w) as [[_ ->]|[_ ->]]; [done|].
    simpl. apply elem_of_app. by left. }
  destruct (on_install_cases env s w)
    as [(responses & _ & _ & ->)|(e & _ & ->)]; simpl; [|eauto].
  destruct (assoc_set_elem (CACHE_NAME s)
              (batch_result (zip (urlsToCache s) responses)
                 (default [] (store (CACHE_NAME s) w)))
              _ n c Hin') as [?|(-> & Hc & Hnew)]; [eauto|].
  eexists _, _. split; [exact Hnew|].
  apply batch_result_keeps.
  fold (store (CACHE_NAME s) (opened (CACHE_NAME s) w)) in Hc.
  rewrite store_opened_eq in Hc. by simplify_eq.
Qed.

(** X3. Once cached, always answered from the cache: a request that has a
    stored response still has one after any sequence of install, activate
    and fetch events, so the fetch listener answers it without the network
    and the world is the one before the request. *)
Theorem cached_request_stays_cached (env : Env) (s : Script)
    (evs : list Event) (sys : System) (r : Request) :
  is_Some (storage_match r (caches (world sys))) →
  ∃ stored,
    storage_match r (caches (world (run env s evs sys))) = Some stored ∧
    on_fetch env r (world (run env s evs sys)) =
      (Fulfilled stored, world (run env s evs sys)).
Proof.
  intros Hhit.
  assert (is_Some (storage_match r (caches (world (run env s evs sys)))))
    as [stored Hstored].
  { unfold run. revert sys Hhit.
    induction evs as [|ev evs IH]; intros sys Hhit; simpl; [done|].
    apply IH. unfold dispatch.
    destruct ev as [| |r'], (phase sys); simpl; try done.
    - pose proof (on_install_keeps_match env s (world sys) r Hhit) as Hkept.
      by destruct (on_install env s (world sys)) as [[?|?] ?].
    - by rewrite on_fetch_caches. }
  exists stored. split; [done | by apply on_fetch_hit].
Qed.

Lemma cached_request_stays_cached_witness :
  ∃ stored,
    storage_match (GET "/join.html")
      (caches (world (run offline optimize_simple.createServiceWorker
                        [Install; Fetch (GET "/x"); Activate]
                        {| world := (on_install online sw_js empty_world).2;
                           phase := Unregistered |}))) = Some stored ∧
    on_fetch offline (GET "/join.html")
      (world (run offline optimize_simple.createServiceWorker
                [Install; Fetch (GET "/x"); Activate]
                {| world := (on_install online sw_js empty_world).2;
                   phase := Unregistered |})) =
    (Fulfilled stored,
     world (run offline optimize_simple.createServiceWorker
                [Install; Fetch (GET "/x"); Activate]
                {| world := (on_install online sw_js empty_world).2;
                   phase := Unregistered |})).
Proof.
  apply (cached_request_stays_cached offline
           optimize_simple.createServiceWorker
           [Install; Fetch (GET "/x"); Activate]
           {| world := (on_install online sw_js empty_world).2;
              phase := Unregistered |} (GET "/join.html")).
  by_compute.
Defined.

(** ** src/optimize-simple.js *)

Lemma simple_main_eq utf8 minify gzipSync (fs : gmap string string) :
  optimize_simple_js.main utf8 minify gzipSync fs =
  match fs !! "index.html" with
  | Some html =>
      match minify (utf8 html) with
      | Some m =>
          (0%nat,
           <["sw.js" := optimize_simple_js.sw]>
             (<["index.min.html.gz" := gzipSync m]>
                (<["index.min.html" := m]> fs)))
      | None => (1%nat, fs)
      end
  | None => (1%nat, fs)
  end.
Proof.
  unfold optimize_simple_js.main, node.try_exit,
    optimize_simple_js.optimizeHTML, optimize_simple_js.createServiceWorker,
    node.bind, node.readFileSync, node.await, node.writeFileSync,
    node.statSync_size, node.ret, node.throw.
  destruct (fs !! "index.html") as [html|] eqn:Hhtml; [|done].
  destruct (minify (utf8 html)) as [m|]; [|done].
  by simplify_map_eq.
Qed.

(** X4. A run of optimize-simple does not exit with 0 exactly when
    index.html is missing or the minifier rejects what is read from it;
    and a run that does not exit with 0 exits with 1 and has written
    nothing: the files are the ones before the run. *)
Theorem simple_failed_run_writes_nothing (utf8 : string → string)
    (minify : string → option string) (gzipSync : string → string)
    (fs : gmap string string) :
  ((optimize_simple_js.main utf8 minify gzipSync fs).1 ≠ 0%nat ↔
   (utf8 <$> fs !! "index.html") ≫= minify = None) ∧
  ((optimize_simple_js.main utf8 minify gzipSync fs).1 ≠ 0%nat →
   (optimize_simple_js.main utf8 minify gzipSync fs).2 = fs ∧
   (optimize_simple_js.main utf8 minify gzipSync fs).1 = 1%nat).
Proof.
  rewrite simple_main_eq.
  destruct (fs !! "index.html") as [html|]; simpl; [|done].
  destruct (minify (utf8 html)); simpl; [|done].
  split; [split; done | done].
Qed.

Lemma simple_failed_run_writes_nothing_witness :
  optimize_simple_js.main read_utf8 mark_minified mark_gzipped
    (<["index.html" := "<<"]> site) =
  (1%nat, <["index.html" := "<<"]> site) ∧
  (optimize_simple_js.main read_utf8 mark_minified mark_gzipped site).1
  = 0%nat.
Proof.
  destruct (simple_failed_run_writes_nothing read_utf8 mark_minified
              mark_gzipped (<["index.html" := "<<"]> site))
    as [[_ Hfails] Hnothing].
  destruct (simple_failed_run_writes_nothing read_utf8 mark_minified
              mark_gzipped site) as [[Hrejected _] _].
  split.
  - destruct (Hnothing (Hfails eq_refl)) as [Hfiles Hexit].
    rewrite (surjective_pairing (optimize_simple_js.main _ _ _ _)).
    by rewrite Hfiles, Hexit.
  - destruct (decide ((optimize_simple_js.main read_utf8 mark_minified
                         mark_gzipped site).1 = 0%nat)) as [?|Hne]; [done|].
    specialize (Hrejected Hne). vm_compute in Hrejected. discriminate.
Defined.

(** X5. optimize-simple never changes its input: whatever the outcome,
    index.html and every file other than index.min.html, index.min.html.gz
    and sw.js are what they were. *)
Theorem simple_run_frame (utf8 : string → string)
    (minify : string → option string) (gzipSync : string → string)
    (fs : gmap string string) (path : string) :
  path ∉ ["index.min.html"; "index.min.html.gz"; "sw.js"] →
  (optimize_simple_js.main utf8 minify gzipSync fs).2 !! path = fs !! path.
Proof.
  intros Hpath. rewrite simple_main_eq.
  destruct (fs !! "index.html") as [html|]; simpl; [|done].
  destruct (minify (utf8 html)) as [m|]; simpl; [|done].
  rewrite !not_elem_of_cons in Hpath. destruct Hpath as (? & ? & ? & _).
  by rewrite !lookup_insert_ne.
Qed.

Lemma simple_run_frame_witness :
  (optimize_simple_js.main read_utf8 mark_minified mark_gzipped site).2
    !! "index.html"
  = Some "<html> </html>".
Proof.
  apply (simple_run_frame read_utf8 mark_minified mark_gzipped site
           "index.html").
  by_compute.
Defined.

(** X6. Running optimize-simple again changes nothing: the second run has
    the exit code of the first and leaves the files the first left. *)
Theorem simple_run_idempotent (utf8 : string → string)
    (minify : string → option string) (gzipSync : string → string)
    (fs : gmap string string) :
  optimize_simple_js.main utf8 minify gzipSync
    (optimize_simple_js.main utf8 minify gzipSync fs).2 =
  optimize_simple_js.main utf8 minify gzipSync fs.
Proof.
  rewrite (simple_main_eq _ _ _ fs).
  destruct (fs !! "index.html") as [html|] eqn:Hhtml; simpl;
    [|by rewrite simple_main_eq, Hhtml].
  destruct (minify (utf8 html)) as [m|] eqn:Hm; simpl;
    [|by rewrite simple_main_eq, Hhtml, Hm].
  rewrite simple_main_eq. rewrite !lookup_insert_ne, Hhtml, Hm by done.
  f_equal. apply map_eq. intros path.
  destruct (decide (path = "sw.js")) as [->|]; [by simplify_map_eq|].
  destruct (decide (path = "index.min.html.gz")) as [->|];
    [by simplify_map_eq|].
  destruct (decide (path = "index.min.html")) as [->|];
    by simplify_map_eq.
Qed.

(** ** The build script of src/sw.js, lines 24-157 *)

(** How the steps of a script run. *)
Section io_steps.
Import node.
Context {A : Type}.
Implicit Types (fs : gmap string string) (k : string → IO A).

Lemma bind_assoc {B C} (m : IO B) (f : B → IO C) (g : C → IO A) fs :
  bind (bind m f) g fs = bind m (λ x, bind (f x) g) fs.
Proof. unfold bind. by destruct (m fs) as [[e|b] fs']. Qed.

Lemma bind_ret {B} (b : B) (g : B → IO A) fs : bind (ret b) g fs = g b fs.
Proof. done. Qed.

Lemma read_ok utf8 path data k fs :
  fs !! path = Some data →
  bind (readFileSync utf8 path) k fs = k (utf8 data) fs.
Proof. intros H. unfold bind, readFileSync. by rewrite H. Qed.

Lemma read_missing utf8 path k fs :
  fs !! path = None →
  bind (readFileSync utf8 path) k fs = (inl (ENOENT path), fs).
Proof. intros H. unfold bind, readFileSync. by rewrite H. Qed.

Lemma write_step path data (g : () → IO A) fs :
  bind (writeFileSync path data) g fs = g () (<[path := data]> fs).
Proof. done. Qed.

Lemma exists_step path (g : bool → IO A) fs :
  bind (existsSync path) g fs = g (bool_decide (is_Some (fs !! path))) fs.
Proof. done. Qed.

Lemma stat_ok path data (g : nat → IO A) fs :
  fs !! path = Some data →
  bind (statSync_size path) g fs = g (String.length data) fs.
Proof. intros H. unfold bind, statSync_size. by rewrite H. Qed.

Lemma stat_missing path (g : nat → IO A) fs :
  fs !! path = None →
  bind (statSync_size path) g fs = (inl (ENOENT path), fs).
Proof. intros H. unfold bind, statSync_size. by rewrite H. Qed.

Lemma await_ok minified k fs : bind (await (Some minified)) k fs = k minified fs.
Proof. done. Qed.

Lemma await_rejected k fs :
  bind (await None) k fs = (inl MinifyError, fs).
Proof. done. Qed.
End io_steps.

Lemma optimize_main_eq utf8 minify gzipSync (fs : gmap string string) :
  optimize_js.main utf8 minify gzipSync fs =
  match fs !! "index.html" with
  | None => (1%nat, fs)
  | Some html =>
      match minify (utf8 html) with
      | None => (1%nat, fs)
      | Some m =>
          let fs1 := index_written gzipSync (utf8 html) m fs in
          match fs !! "join.html" with
          | Some joinHtml =>
              match minify (utf8 joinHtml) with
              | None => (1%nat, fs1)
              | Some jm =>
                  (0%nat,
                   <["sw.js" := optimize_js.sw]>
                     (<["join.html.gz" := gzipSync jm]>
                        (<["join.html" := jm]>
                           (<["join.original.html" := utf8 joinHtml]> fs1))))
              end
          | None =>
              match fs !! "join.original.html" with
              | Some _ => (1%nat, fs1)
              | None => (0%nat, <["sw.js" := optimize_js.sw]> fs1)
              end
          end
      end
  end.
Proof.
  unfold optimize_js.main, node.try_exit, optimize_js.optimizeHTML,
    optimize_js.createServiceWorker.
  rewrite bind_assoc.
  destruct (fs !! "index.html") as [html|] eqn:Hhtml;
    [rewrite (read_ok _ _ html) by done | by rewrite read_missing].
  rewrite bind_assoc.
  destruct (minify (utf8 html)) as [m|];
    [rewrite await_ok | by rewrite await_rejected].
  rewrite ?bind_assoc, write_step.
  rewrite ?bind_assoc, write_step.
  rewrite ?bind_assoc, write_step.
  fold (index_written gzipSync (utf8 html) m fs).
  assert (∀ p, p ∉ ["index.original.html"; "index.html"; "index.html.gz"] →
               index_written gzipSync (utf8 html) m fs !! p = fs !! p)
    as Hother.
  { intros p Hp. rewrite !not_elem_of_cons in Hp.
    destruct Hp as (? & ? & ? & _).
    unfold index_written. by rewrite !lookup_insert_ne. }
  set (fs1 := index_written gzipSync (utf8 html) m fs) in *.
  rewrite ?bind_assoc, exists_step, Hother by by_compute.
  destruct (fs !! "join.html") as [joinHtml|] eqn:Hjoin.
  - rewrite bool_decide_true by eauto.
    rewrite ?bind_assoc, (read_ok _ _ joinHtml)
      by (by rewrite Hother by by_compute).
    rewrite ?bind_assoc.
    destruct (minify (utf8 joinHtml)) as [jm|];
      [rewrite await_ok | by rewrite await_rejected].
    rewrite ?bind_assoc, write_step.
    rewrite ?bind_assoc, write_step.
    rewrite ?bind_assoc, write_step.
    rewrite ?bind_assoc, (stat_ok _ (utf8 html))
      by (unfold fs1, index_written; by simplify_map_eq).
    rewrite ?bind_assoc, (stat_ok _ m)
      by (unfold fs1, index_written; by simplify_map_eq).
    rewrite ?bind_assoc, (stat_ok _ (gzipSync m))
      by (unfold fs1, index_written; by simplify_map_eq).
    rewrite ?bind_assoc, exists_step.
    rewrite bool_decide_true by (by simplify_map_eq).
    rewrite ?bind_assoc, (stat_ok _ (utf8 joinHtml)) by by simplify_map_eq.
    rewrite ?bind_assoc, (stat_ok _ jm) by by simplify_map_eq.
    rewrite ?bind_assoc, (stat_ok _ (gzipSync jm)) by by simplify_map_eq.
    by rewrite bind_ret.
  - rewrite bool_decide_false by (by intros [? ?]).
    rewrite ?bind_assoc, bind_ret.
    rewrite ?bind_assoc, (stat_ok _ (utf8 html))
      by (unfold fs1, index_written; by simplify_map_eq).
    rewrite ?bind_assoc, (stat_ok _ m)
      by (unfold fs1, index_written; by simplify_map_eq).
    rewrite ?bind_assoc, (stat_ok _ (gzipSync m))
      by (unfold fs1, index_written; by simplify_map_eq).
    rewrite ?bind_assoc, exists_step, Hother by by_compute.
    destruct (fs !! "join.original.html") as [old|] eqn:Hold.
    + rewrite bool_decide_true by eauto.
      rewrite ?bind_assoc, (stat_ok _ old) by (by rewrite Hother by by_compute).
      rewrite ?bind_assoc, stat_missing; [done|].
      by rewrite Hother by by_compute.
    + rewrite bool_decide_false by (by intros [? ?]).
      by rewrite bind_ret.
Qed.

Lemma index_written_lookup gzipSync html m (fs : gmap string string) :
  index_written gzipSync html m fs !! "index.original.html" = Some html ∧
  index_written gzipSync html m fs !! "index.html" = Some m ∧
  index_written gzipSync html m fs !! "index.html.gz" = Some (gzipSync m) ∧
  ∀ p, p ∉ ["index.original.html"; "index.html"; "index.html.gz"] →
       index_written gzipSync html m fs !! p = fs !! p.
Proof.
  unfold index_written. repeat split; try by simplify_map_eq.
  intros p Hp. rewrite !not_elem_of_cons in Hp.
  destruct Hp as (? & ? & ? & _). by rewrite !lookup_insert_ne.
Qed.

(** The three index files after a run that got past the minifier. *)
Lemma optimize_index_files utf8 minify gzipSync (fs : gmap string string)
    (html m : string) :
  fs !! "index.html" = Some html →
  minify (utf8 html) = Some m →
  (optimize_js.main utf8 minify gzipSync fs).2 !! "index.original.html"
    = Some (utf8 html) ∧
  (optimize_js.main utf8 minify gzipSync fs).2 !! "index.html" = Some m ∧
  (optimize_js.main utf8 minify gzipSync fs).2 !! "index.html.gz"
    = Some (gzipSync m) ∧
  ((optimize_js.main utf8 minify gzipSync fs).1 = 0%nat →
   (optimize_js.main utf8 minify gzipSync fs).2 !! "sw.js"
     = Some optimize_js.sw).
Proof.
  intros Hhtml Hm. rewrite optimize_main_eq, Hhtml, Hm. cbv zeta.
  destruct (index_written_lookup gzipSync (utf8 html) m fs)
    as (Horig & Hmin & Hgz & _).
  destruct (fs !! "join.html") as [joinHtml|].
  - destruct (minify (utf8 joinHtml)) as [jm|]; simpl; [|done].
    rewrite !(lookup_insert_ne _ "sw.js"), !(lookup_insert_ne _ "join.html.gz"),
      !(lookup_insert_ne _ "join.html"),
      !(lookup_insert_ne _ "join.original.html") by done.
    by rewrite lookup_insert_eq.
  - destruct (fs !! "join.original.html"); simpl; [done|].
    rewrite !(lookup_insert_ne _ "sw.js") by done.
    by rewrite lookup_insert_eq.
Qed.

(** X7. When index.html is there and the minifier accepts what is read from
    it, the run leaves in index.original.html the page as it was read as
    UTF-8, which is the page as it was exactly when reading it as UTF-8
    changes nothing; it leaves the minified page in index.html and its
    gzip in index.html.gz, whatever happens afterwards; and a run that
    exits with 0 has written sw.js. *)
Theorem optimize_keeps_original (utf8 : string → string)
    (minify : string → option string)
    (gzipSync : string → string) (fs : gmap string string)
    (html m : string) :
  fs !! "index.html" = Some html →
  minify (utf8 html) = Some m →
  let after := (optimize_js.main utf8 minify gzipSync fs).2 in
  after !! "index.original.html" = Some (utf8 html) ∧
  (after !! "index.original.html" = Some html ↔ utf8 html = html) ∧
  after !! "index.html" = Some m ∧
  after !! "index.html.gz" = Some (gzipSync m) ∧
  ((optimize_js.main utf8 minify gzipSync fs).1 = 0%nat →
   after !! "sw.js" = Some optimize_js.sw).
Proof.
  intros Hhtml Hm. cbv zeta.
  destruct (optimize_index_files utf8 minify gzipSync fs html m Hhtml Hm)
    as (Horig & Hmin & Hgz & Hsw).
  split; [done|]. split; [|done].
  rewrite Horig. split; [by intros [= ->] | by intros ->].
Qed.

Lemma optimize_keeps_original_witness :
  (optimize_js.main read_utf8 mark_minified mark_gzipped
     (<["index.html" := legacy_page]> site)).2 !! "index.original.html"
  = Some (read_utf8 legacy_page) ∧
  (optimize_js.main read_utf8 mark_minified mark_gzipped
     (<["index.html" := legacy_page]> site)).2 !! "index.original.html"
  ≠ Some legacy_page ∧
  (optimize_js.main read_utf8 mark_minified mark_gzipped site).2
    !! "index.original.html" = Some "<html> </html>".
Proof.
  destruct (optimize_keeps_original read_utf8 mark_minified mark_gzipped
              (<["index.html" := legacy_page]> site) legacy_page
              (String.append "min " (read_utf8 legacy_page)))
    as (Hread & Hsame & _); [reflexivity | reflexivity |].
  destruct (optimize_keeps_original read_utf8 mark_minified mark_gzipped
              site "<html> </html>" "min <html> </html>")
    as (Horig & _); [reflexivity | reflexivity |].
  split; [exact Hread|]. split; [|exact Horig].
  intros Heq. apply Hsame in Heq. vm_compute in Heq. discriminate.
Defined.

(** X8. When index.html is missing or the minifier rejects it, the run
    exits with 1 and has written nothing. *)
Theorem optimize_fails_before_writing (utf8 : string → string)
    (minify : string → option string)
    (gzipSync : string → string) (fs : gmap string string) :
  (utf8 <$> fs !! "index.html") ≫= minify = None →
  optimize_js.main utf8 minify gzipSync fs = (1%nat, fs).
Proof.
  intros Hnone. rewrite optimize_main_eq.
  destruct (fs !! "index.html") as [html|]; simpl in *; [|done].
  by rewrite Hnone.
Qed.

Lemma optimize_fails_before_writing_witness :
  optimize_js.main read_utf8 mark_minified mark_gzipped
    (delete "index.html" site) =
  (1%nat, delete "index.html" site).
Proof.
  apply (optimize_fails_before_writing read_utf8 mark_minified mark_gzipped
           (delete "index.html" site)).
  reflexivity.
Defined.

(** X9. A run is not all or nothing: when index.html is accepted and
    join.html is there but rejected by the minifier, the run exits with 1
    after it has overwritten index.html; join.html is as it was and sw.js
    is not written. *)
Theorem optimize_fails_after_index (utf8 : string → string)
    (minify : string → option string)
    (gzipSync : string → string) (fs : gmap string string)
    (html m joinHtml : string) :
  fs !! "index.html" = Some html → minify (utf8 html) = Some m →
  fs !! "join.html" = Some joinHtml → minify (utf8 joinHtml) = None →
  optimize_js.main utf8 minify gzipSync fs =
    (1%nat, index_written gzipSync (utf8 html) m fs) ∧
  index_written gzipSync (utf8 html) m fs !! "index.html" = Some m ∧
  index_written gzipSync (utf8 html) m fs !! "join.html" = Some joinHtml ∧
  index_written gzipSync (utf8 html) m fs !! "sw.js" = fs !! "sw.js".
Proof.
  intros Hhtml Hm Hjoin Hjm.
  rewrite optimize_main_eq, Hhtml, Hm. cbv zeta. rewrite Hjoin, Hjm.
  destruct (index_written_lookup gzipSync (utf8 html) m fs)
    as (_ & Hmin & _ & Hother).
  split; [done|]. split; [done|].
  rewrite !Hother by by_compute. done.
Qed.

Lemma optimize_fails_after_index_witness :
  optimize_js.main read_utf8 mark_minified mark_gzipped
    (<["join.html" := "<<"]> site) =
    (1%nat,
     index_written mark_gzipped "<html> </html>" "min <html> </html>"
       (<["join.html" := "<<"]> site)) ∧
  index_written mark_gzipped "<html> </html>" "min <html> </html>"
    (<["join.html" := "<<"]> site) !! "sw.js" = None.
Proof.
  destruct (optimize_fails_after_index read_utf8 mark_minified mark_gzipped
              (<["join.html" := "<<"]> site)
              "<html> </html>" "min <html> </html>" "<<")
    as (Hrun & _ & _ & Hsw); [reflexivity | reflexivity | reflexivity
                             | reflexivity |].
  split; [exact Hrun | exact Hsw].
Defined.

(** X10. A join.original.html left by an earlier run, with join.html gone,
    makes the run fail in its report: the size of join.html is asked for
    because join.original.html exists.  The run exits with 1 after it has
    overwritten index.html, and sw.js is not written. *)
Theorem optimize_fails_on_stale_join_original (utf8 : string → string)
    (minify : string → option string) (gzipSync : string → string)
    (fs : gmap string string) (html m : string) :
  fs !! "index.html" = Some html → minify (utf8 html) = Some m →
  fs !! "join.html" = None → is_Some (fs !! "join.original.html") →
  optimize_js.main utf8 minify gzipSync fs =
    (1%nat, index_written gzipSync (utf8 html) m fs) ∧
  index_written gzipSync (utf8 html) m fs !! "sw.js" = fs !! "sw.js".
Proof.
  intros Hhtml Hm Hjoin [old Hold].
  rewrite optimize_main_eq, Hhtml, Hm. cbv zeta. rewrite Hjoin, Hold.
  destruct (index_written_lookup gzipSync (utf8 html) m fs)
    as (_ & _ & _ & Hother).
  split; [done|]. by rewrite Hother by by_compute.
Qed.

Lemma optimize_fails_on_stale_join_original_witness :
  optimize_js.main read_utf8 mark_minified mark_gzipped
    (<["join.original.html" := "<p>"]> site) =
  (1%nat,
   index_written mark_gzipped "<html> </html>" "min <html> </html>"
     (<["join.original.html" := "<p>"]> site)).
Proof.
  apply (optimize_fails_on_stale_join_original read_utf8 mark_minified
           mark_gzipped (<["join.original.html" := "<p>"]> site)
           "<html> </html>" "min <html> </html>").
  - reflexivity.
  - reflexivity.
  - reflexivity.
  - by_compute.
Defined.

(** X11. The original does not survive a second run: after two runs
    index.original.html holds the page minified once, as the second run
    read it, and index.html the page minified twice. *)
Theorem optimize_rerun_loses_original (utf8 : string → string)
    (minify : string → option string)
    (gzipSync : string → string) (fs : gmap string string)
    (html m m2 : string) :
  fs !! "index.html" = Some html →
  minify (utf8 html) = Some m → minify (utf8 m) = Some m2 →
  let once := (optimize_js.main utf8 minify gzipSync fs).2 in
  let twice := (optimize_js.main utf8 minify gzipSync once).2 in
  once !! "index.original.html" = Some (utf8 html) ∧
  twice !! "index.original.html" = Some (utf8 m) ∧
  (utf8 m = m → twice !! "index.original.html" = Some m) ∧
  twice !! "index.html" = Some m2.
Proof.
  intros Hhtml Hm Hm2 once twice.
  destruct (optimize_index_files utf8 minify gzipSync fs html m Hhtml Hm)
    as (Horig & Hmin & _).
  fold once in Horig, Hmin.
  destruct (optimize_index_files utf8 minify gzipSync once m m2 Hmin Hm2)
    as (Horig2 & Hmin2 & _).
  fold twice in Horig2, Hmin2.
  split; [done|]. split; [done|]. split; [|done].
  intros Hsame. by rewrite Horig2, Hsame.
Qed.

Lemma optimize_rerun_loses_original_witness :
  (optimize_js.main read_utf8 mark_minified mark_gzipped
     (optimize_js.main read_utf8 mark_minified mark_gzipped site).2).2
    !! "index.original.html" = Some "min <html> </html>".
Proof.
  destruct (optimize_rerun_loses_original read_utf8 mark_minified
              mark_gzipped site
              "<html> </html>" "min <html> </html>"
              "min min <html> </html>")
    as (_ & _ & Hlost & _); [reflexivity | reflexivity | reflexivity |].
  apply Hlost. reflexivity.
Defined.

(** X12. Whatever the outcome, the run touches no file but index.html,
    index.original.html, index.html.gz, the three join files of the same
    names, and sw.js. *)
Theorem optimize_run_frame (utf8 : string → string)
    (minify : string → option string)
    (gzipSync : string → string) (fs : gmap string string) (path : string) :
  path ∉ ["index.original.html"; "index.html"; "index.html.gz";
          "join.original.html"; "join.html"; "join.html.gz"; "sw.js"] →
  (optimize_js.main utf8 minify gzipSync fs).2 !! path = fs !! path.
Proof.
  intros Hpath. rewrite !not_elem_of_cons in Hpath.
  destruct Hpath as (? & ? & ? & ? & ? & ? & ? & _).
  rewrite optimize_main_eq.
  destruct (fs !! "index.html") as [html|]; [|done].
  destruct (minify (utf8 html)) as [m|]; [|done]. cbv zeta.
  assert (index_written gzipSync (utf8 html) m fs !! path = fs !! path)
    as Hfs1.
  { unfold index_written. by rewrite !lookup_insert_ne. }
  destruct (fs !! "join.html") as [joinHtml|].
  - destruct (minify (utf8 joinHtml)) as [jm|]; simpl; [|done].
    by rewrite !lookup_insert_ne.
  - destruct (fs !! "join.original.html"); simpl; [done|].
    by rewrite lookup_insert_ne.
Qed.

Lemma optimize_run_frame_witness :
  (optimize_js.main read_utf8 mark_minified mark_gzipped site).2
    !! "style.css"
  = Some "p { }".
Proof.
  apply (optimize_run_frame read_utf8 mark_minified mark_gzipped site
           "style.css").
  by_compute.
Defined.

(** X13. join.html is optional: without join.html and without
    join.original.html, an accepted index.html gives exit code 0, the three
    index files and sw.js, and no join file is created. *)
Theorem optimize_without_join (utf8 : string → string)
    (minify : string → option string)
    (gzipSync : string → string) (fs : gmap string string)
    (html m : string) :
  fs !! "index.html" = Some html → minify (utf8 html) = Some m →
  fs !! "join.html" = None → fs !! "join.original.html" = None →
  optimize_js.main utf8 minify gzipSync fs =
    (0%nat,
     <["sw.js" := optimize_js.sw]>
       (index_written gzipSync (utf8 html) m fs)) ∧
  ∀ p, p ∈ ["join.original.html"; "join.html"; "join.html.gz"] →
       (optimize_js.main utf8 minify gzipSync fs).2 !! p = fs !! p.
Proof.
  intros Hhtml Hm Hjoin Hold.
  assert (optimize_js.main utf8 minify gzipSync fs =
          (0%nat,
           <["sw.js" := optimize_js.sw]>
             (index_written gzipSync (utf8 html) m fs)))
    as Hrun.
  { rewrite optimize_main_eq, Hhtml, Hm. cbv zeta. by rewrite Hjoin, Hold. }
  split; [done|]. intros p Hp. rewrite Hrun; simpl.
  destruct (index_written_lookup gzipSync (utf8 html) m fs)
    as (_ & _ & _ & Hother).
  rewrite !elem_of_cons in Hp.
  destruct Hp as [->|[->|[->|Hp]]]; [| | |by apply elem_of_nil in Hp];
    rewrite lookup_insert_ne by done; apply Hother; by_compute.
Qed.

Lemma optimize_without_join_witness :
  optimize_js.main read_utf8 mark_minified mark_gzipped site =
  (0%nat,
   <["sw.js" := optimize_js.sw]>
     (index_written mark_gzipped "<html> </html>" "min <html> </html>" site)).
Proof.
  apply (optimize_without_join read_utf8 mark_minified mark_gzipped site
           "<html> </html>" "min <html> </html>"); reflexivity.
Defined.

(** ** src/optimize-local.js: the page handed to the minifier *)

Section page_rewriting.
Import optimize_local_js.
Import Stdlib.Strings.Ascii.
Implicit Types (pat rep s a b ext src rest : list ascii).

Lemma strip_prefix_app pat s : strip_prefix pat (pat ++ s) = Some s.
Proof.
  induction pat as [|c pat IH]; simpl; [by destruct s|].
  by rewrite decide_True.
Qed.

Lemma strip_prefix_Some pat s rest :
  strip_prefix pat s = Some rest → s = pat ++ rest.
Proof.
  revert s. induction pat as [|c pat IH]; intros s; simpl.
  - destruct s; by intros [= ->].
  - destruct s as [|c' s]; [done|].
    case_decide; [|done]. intros ->%IH. by subst.
Qed.

Lemma find_first_Some pat s a b :
  find_first pat s = Some (a, b) → s = a ++ pat ++ b.
Proof.
  revert a. induction s as [|c s IH]; intros a; simpl.
  - destruct (strip_prefix pat []) eqn:Hp; [|done].
    intros [= <- <-]. by apply strip_prefix_Some in Hp.
  - destruct (strip_prefix pat (c :: s)) eqn:Hp.
    + intros [= <- <-]. by apply strip_prefix_Some in Hp.
    + destruct (find_first pat s) as [[a' b']|]; [|done].
      intros [= <- <-]. simpl. f_equal. by apply IH.
Qed.

Lemma find_first_None pat s a b :
  find_first pat s = None → s ≠ a ++ pat ++ b.
Proof.
  revert a. induction s as [|c s IH]; intros a; simpl.
  - destruct (strip_prefix pat []) eqn:Hp; [done|]. intros _ Heq.
    destruct a; [|done]. simpl in Heq.
    rewrite Heq, strip_prefix_app in Hp. done.
  - destruct (strip_prefix pat (c :: s)) eqn:Hp; [done|].
    destruct (find_first pat s) as [[a' b']|] eqn:Hf; [done|].
    intros _ Heq. destruct a as [|c' a]; simpl in Heq.
    + rewrite Heq, strip_prefix_app in Hp. done.
    + injection Heq as -> Heq. by apply (IH a).
Qed.

(** A pattern whose first character does not come back in it cannot begin
    in [a] and end in the pattern that follows [a]. *)
Lemma strip_prefix_inside pat a c s rest :
  c ∉ pat → strip_prefix pat (a ++ c :: s) = Some rest →
  is_Some (strip_prefix pat a).
Proof.
  revert a. induction pat as [|p pat IH]; intros a Hc; simpl.
  - destruct a; eauto.
  - apply not_elem_of_cons in Hc as [Hne Hc].
    destruct a as [|c' a]; simpl.
    + by rewrite decide_False.
    + case_decide; [|done]. by apply IH.
Qed.

Lemma find_first_at_head pat s :
  find_first pat (pat ++ s) = Some ([], s).
Proof.
  destruct (pat ++ s) as [|c l] eqn:Heq; simpl; rewrite <- Heq;
    by rewrite strip_prefix_app.
Qed.

Lemma find_first_here c pat a b :
  c ∉ pat → find_first (c :: pat) a = None →
  find_first (c :: pat) (a ++ c :: pat ++ b) = Some (a, b).
Proof.
  intros Hc. induction a as [|c' a IH]; intros Hnone.
  - simpl app. apply (find_first_at_head (c :: pat)).
  - simpl in Hnone |- *.
    destruct (decide (c = c')) as [->|Hne].
    + destruct (strip_prefix pat a) as [r|] eqn:Hp; [done|].
      destruct (find_first (c' :: pat) a) as [[? ?]|] eqn:Hf; [done|].
      destruct (strip_prefix pat (a ++ c' :: pat ++ b)) as [r|] eqn:Hp'.
      { apply strip_prefix_inside in Hp' as [? ?]; [congruence | done]. }
      by rewrite IH.
    + destruct (find_first (c :: pat) a) as [[? ?]|] eqn:Hf; [done|].
      by rewrite IH.
Qed.

Lemma until_dq_app src rest :
  dq ∉ src → until_dq (src ++ dq :: rest) = Some (src, rest).
Proof.
  induction src as [|c src IH]; simpl; intros Hdq.
  - reflexivity.
  - apply not_elem_of_cons in Hdq as [Hne Hdq].
    rewrite decide_False by done. by rewrite IH.
Qed.

Lemma replace_img_skip ext m rest :
  replace_img ext (length m) (m ++ rest) = replace_img ext 0 rest.
Proof. induction m as [|c m IH]; simpl; [by destruct rest | done]. Qed.

Lemma match_img_None ext s :
  strip_prefix src_open s = None → match_img ext s = None.
Proof. intros H. unfold match_img. by rewrite H. Qed.

Lemma find_first_None_head pat c s :
  find_first pat (c :: s) = None →
  strip_prefix pat (c :: s) = None ∧ find_first pat s = None.
Proof.
  simpl. destruct (strip_prefix pat (c :: s)); [done|].
  by destruct (find_first pat s) as [[? ?]|].
Qed.

Lemma replace_img_no_tag ext s :
  find_first src_open s = None → replace_img ext 0 s = s.
Proof.
  induction s as [|c s IH]; [done|].
  intros [Hhead Hrest]%find_first_None_head.
  cbn [replace_img]. rewrite (match_img_None _ _ Hhead).
  by rewrite IH.
Qed.

Lemma replace_first_None pat rep s :
  find_first pat s = None → replace_first pat rep s = s.
Proof. intros H. unfold replace_first. by rewrite H. Qed.
End page_rewriting.

Section page_properties.
Import optimize_local_js.
Import Stdlib.Strings.Ascii.
Implicit Types (html base rest ext x y : list ascii).

Lemma replace_first_here c pat rep a b :
  c ∉ pat → find_first (c :: pat) a = None →
  replace_first (c :: pat) rep (a ++ c :: pat ++ b) = a ++ rep ++ b.
Proof.
  intros Hc Hnone. unfold replace_first.
  by rewrite (find_first_here c pat a b Hc Hnone).
Qed.

Lemma match_img_tag ext src rest :
  dq ∉ src → chars "." ++ ext `suffix_of` src →
  length (chars "." ++ ext) < length src →
  match_img ext (src_open ++ src ++ dq :: rest) = Some (src, rest).
Proof.
  intros Hdq Hsuf Hlen. unfold match_img.
  rewrite strip_prefix_app, until_dq_app by done.
  by rewrite decide_True.
Qed.

Lemma replace_img_tag ext src rest :
  dq ∉ src → chars "." ++ ext `suffix_of` src →
  length (chars "." ++ ext) < length src →
  replace_img ext 0 (src_open ++ src ++ dq :: rest) =
  with_fallback ext src ++ replace_img ext 0 rest.
Proof.
  intros Hdq Hsuf Hlen.
  pose proof (match_img_tag ext src rest Hdq Hsuf Hlen) as Hmatch.
  change (src_open ++ src ++ dq :: rest)
    with ("s"%char :: (chars "rc=" ++ [dq]) ++ src ++ dq :: rest) in *.
  cbn [replace_img]. rewrite Hmatch. f_equal.
  replace ((chars "rc=" ++ [dq]) ++ src ++ dq :: rest)
    with (((chars "rc=" ++ [dq]) ++ src ++ [dq]) ++ rest)
    by by rewrite <- !app_assoc.
  generalize ((chars "rc=" ++ [dq]) ++ src ++ [dq]). intros m.
  replace (length (m ++ rest) - length rest) with (length m)
    by (rewrite length_app; lia).
  apply replace_img_skip.
Qed.

(** X14. A page with no [src=] attribute in double quotes and no closing
    body tag comes out as it went in: no image is rewritten and the script
    that registers the service worker is not added. *)
Theorem page_without_tags_unchanged html :
  find_first src_open html = None →
  find_first (chars "</body>") html = None →
  optimizedHtml html = html.
Proof.
  intros Hsrc Hbody. unfold optimizedHtml.
  rewrite !replace_img_no_tag by (by rewrite ?replace_img_no_tag).
  by apply replace_first_None.
Qed.

Lemma page_without_tags_unchanged_witness :
  optimizedHtml (chars "<p>hello</p>") = chars "<p>hello</p>".
Proof.
  apply (page_without_tags_unchanged (chars "<p>hello</p>")); reflexivity.
Defined.

(** X15. On a page without [src=] attributes, the performance script goes
    in once, right before the first closing body tag; the rest of the page,
    later closing body tags included, is as it was. *)
Theorem script_before_first_body_end html_before html_after :
  find_first src_open
    (html_before ++ chars "</body>" ++ html_after) = None →
  find_first (chars "</body>") html_before = None →
  optimizedHtml (html_before ++ chars "</body>" ++ html_after) =
  html_before ++ performanceScript ++ chars "</body>" ++ html_after.
Proof.
  intros Hsrc Hbody. unfold optimizedHtml.
  rewrite !replace_img_no_tag by (by rewrite ?replace_img_no_tag).
  change (chars "</body>") with ("<"%char :: chars "/body>") in *.
  rewrite <- app_comm_cons.
  rewrite replace_first_here; [|by_compute|done].
  by rewrite <- !app_assoc.
Qed.

Lemma script_before_first_body_end_witness :
  optimizedHtml (chars "<body>hi" ++ chars "</body>" ++ chars "</body>") =
  chars "<body>hi" ++ performanceScript ++ chars "</body>"
    ++ chars "</body>".
Proof.
  apply (script_before_first_body_end (chars "<body>hi") (chars "</body>"));
    reflexivity.
Defined.

(** X16. An image whose path has the extension once, at its end, gets the
    .webp path as its source and an onerror handler that puts the path it
    had back; the search goes on after the closing quote. *)
Theorem image_tag_gets_webp_and_fallback ext base rest :
  base ≠ [] → dq ∉ base → dq ∉ ext → "."%char ∉ ext →
  find_first (chars "." ++ ext) base = None →
  replace_img ext 0
    (src_open ++ (base ++ chars "." ++ ext) ++ dq :: rest) =
  src_open ++ (base ++ chars ".webp") ++ [dq]
    ++ chars " onerror=" ++ [dq]
    ++ chars "this.src='" ++ (base ++ chars "." ++ ext)
    ++ chars "'; this.onerror=null;" ++ [dq]
    ++ replace_img ext 0 rest.
Proof.
  intros Hbase Hdq Hdq_ext Hdot Hnone.
  rewrite replace_img_tag.
  - unfold with_fallback.
    change (chars "." ++ ext) with ("."%char :: ext) in *.
    replace (base ++ "."%char :: ext) with (base ++ "."%char :: ext ++ [])
      by by rewrite app_nil_r.
    rewrite replace_first_here by done.
    rewrite !app_nil_r. by rewrite <- !app_assoc.
  - rewrite !not_elem_of_app. split; [done|]. split; [by_compute | done].
  - by apply suffix_app_r.
  - rewrite !length_app. destruct base; [done | simpl; lia].
Qed.

Lemma image_tag_gets_webp_and_fallback_witness :
  replace_img (chars "png") 0
    (src_open ++ (chars "img/home" ++ chars "." ++ chars "png")
       ++ dq :: chars " alt=''>") =
  src_open ++ (chars "img/home" ++ chars ".webp") ++ [dq]
    ++ chars " onerror=" ++ [dq]
    ++ chars "this.src='" ++ (chars "img/home" ++ chars "." ++ chars "png")
    ++ chars "'; this.onerror=null;" ++ [dq]
    ++ replace_img (chars "png") 0 (chars " alt=''>").
Proof.
  apply (image_tag_gets_webp_and_fallback (chars "png") (chars "img/home")
           (chars " alt=''>")).
  - discriminate.
  - by_compute.
  - by_compute.
  - by_compute.
  - reflexivity.
Defined.

(** X17. Only the first occurrence of the extension in the path is turned
    into .webp: a path that has the extension before its end keeps it at
    its end, so the rewritten source does not name a .webp file. *)
Theorem image_path_first_extension_only ext x y rest :
  dq ∉ x → dq ∉ y → dq ∉ ext → "."%char ∉ ext →
  find_first (chars "." ++ ext) x = None →
  replace_img ext 0
    (src_open ++ (x ++ chars "." ++ ext ++ y ++ chars "." ++ ext)
       ++ dq :: rest) =
  src_open ++ (x ++ chars ".webp" ++ y ++ chars "." ++ ext) ++ [dq]
    ++ chars " onerror=" ++ [dq]
    ++ chars "this.src='" ++ (x ++ chars "." ++ ext ++ y ++ chars "." ++ ext)
    ++ chars "'; this.onerror=null;" ++ [dq]
    ++ replace_img ext 0 rest.
Proof.
  intros Hx Hy Hdq_ext Hdot Hnone.
  rewrite replace_img_tag.
  - unfold with_fallback.
    change (chars ".") with ["."%char] in *. cbn [app] in *.
    rewrite replace_first_here by done.
    repeat first [rewrite <- !app_assoc | progress cbn [app]]. done.
  - rewrite !not_elem_of_app.
    repeat split; try done; by_compute.
  - exists (x ++ chars "." ++ ext ++ y). by rewrite <- !app_assoc.
  - rewrite !length_app. simpl. lia.
Qed.

Lemma image_path_first_extension_only_witness :
  replace_img (chars "png") 0
    (src_open ++ (chars "a" ++ chars "." ++ chars "png" ++ chars "/b"
                    ++ chars "." ++ chars "png")
       ++ dq :: []) =
  src_open ++ (chars "a" ++ chars ".webp" ++ chars "/b" ++ chars "."
                 ++ chars "png") ++ [dq]
    ++ chars " onerror=" ++ [dq]
    ++ chars "this.src='"
    ++ (chars "a" ++ chars "." ++ chars "png" ++ chars "/b"
          ++ chars "." ++ chars "png")
    ++ chars "'; this.onerror=null;" ++ [dq]
    ++ replace_img (chars "png") 0 [].
Proof.
  apply (image_path_first_extension_only (chars "png") (chars "a")
           (chars "/b") []).
  - by_compute.
  - by_compute.
  - by_compute.
  - by_compute.
  - reflexivity.
Defined.
End page_properties.

Section page_passes.
Import optimize_local_js.
Import Stdlib.Strings.Ascii.
Implicit Types (seg src base rest ext : list ascii).

Lemma not_suffix_tail (p t l : list ascii) :
  length p = length t → p ≠ t → ¬ p `suffix_of` l ++ t.
Proof.
  intros Hlen Hne [k Hk]. apply app_inj_2 in Hk as [_ Heq]; [|done].
  by subst.
Qed.

(** No [src=Q] begins in a run without quotes that does not end with
    [src=], whatever follows its closing quote. *)
Lemma strip_prefix_segment seg rest :
  dq ∉ seg → ¬ chars "src=" `suffix_of` seg →
  strip_prefix src_open (seg ++ dq :: rest) = None.
Proof.
  intros Hdq Hsuf.
  destruct (strip_prefix src_open (seg ++ dq :: rest)) as [r|] eqn:Hp;
    [exfalso | done].
  apply strip_prefix_Some in Hp.
  destruct seg as [|c1 [|c2 [|c3 [|c4 [|c5 seg]]]]]; simplify_eq/=.
  - by apply Hsuf.
  - apply Hdq. do 4 right. left.
Qed.

Lemma replace_img_segment ext seg rest :
  dq ∉ seg → ¬ chars "src=" `suffix_of` seg →
  replace_img ext 0 (seg ++ dq :: rest) = seg ++ dq :: replace_img ext 0 rest.
Proof.
  induction seg as [|c seg IH]; intros Hdq Hsuf.
  - reflexivity.
  - simpl app. cbn [replace_img].
    rewrite match_img_None
      by (apply (strip_prefix_segment (c :: seg)); done).
    rewrite IH; [done | |].
    + by apply not_elem_of_cons in Hdq as [_ ?].
    + intros Hs. apply Hsuf. by apply suffix_cons_r.
Qed.

Lemma replace_img_other_tag ext src rest :
  dq ∉ src → ¬ chars "src=" `suffix_of` src →
  ¬ (chars "." ++ ext `suffix_of` src
     ∧ length (chars "." ++ ext) < length src) →
  replace_img ext 0 (src_open ++ src ++ dq :: rest) =
  src_open ++ src ++ dq :: replace_img ext 0 rest.
Proof.
  intros Hdq Hsuf Hext.
  assert (match_img ext (src_open ++ src ++ dq :: rest) = None) as Hnone.
  { unfold match_img. rewrite strip_prefix_app, until_dq_app by done.
    by rewrite decide_False. }
  change (src_open ++ src ++ dq :: rest)
    with ("s"%char :: chars "rc=" ++ dq :: src ++ dq :: rest) in *.
  cbn [replace_img]. rewrite Hnone. f_equal.
  rewrite replace_img_segment; [|by_compute|by_compute].
  by rewrite replace_img_segment.
Qed.

(** X18. An attribute the expression does not match is left as it is and
    the search goes on after it: so for a path with another extension, or
    with nothing before the extension.  (A path that ends with [src=] is
    excluded: there the expression can match from inside the path.) *)
Theorem other_image_tags_unchanged ext src rest :
  dq ∉ src → ¬ chars "src=" `suffix_of` src →
  ¬ chars "." ++ ext `suffix_of` src
  ∨ (length src ≤ length (chars "." ++ ext))%nat →
  replace_img ext 0 (src_open ++ src ++ dq :: rest) =
  src_open ++ src ++ dq :: replace_img ext 0 rest.
Proof.
  intros Hdq Hsuf Hext. apply replace_img_other_tag; [done | done |].
  intros [Hs Hlen]. destruct Hext as [Hno|Hshort]; [done | lia].
Qed.

Lemma other_image_tags_unchanged_witness :
  replace_img (chars "png") 0
    (src_open ++ chars ".png" ++ dq :: chars "/>") =
  src_open ++ chars ".png" ++ dq :: replace_img (chars "png") 0 (chars "/>").
Proof.
  apply (other_image_tags_unchanged (chars "png") (chars ".png")
           (chars "/>")).
  - by_compute.
  - by_compute.
  - right. simpl. lia.
Defined.

(** X19. The .jpg pass leaves what the .png pass wrote for an image alone:
    the rewritten tag, with its .webp source and its fallback, is not
    matched again, and the .jpg pass goes on after it. *)
Theorem jpg_pass_keeps_png_rewrite base rest :
  dq ∉ base →
  replace_img (chars "jpg") 0
    (src_open ++ (base ++ chars ".webp") ++ [dq]
       ++ chars " onerror=" ++ [dq]
       ++ chars "this.src='" ++ (base ++ chars ".png")
       ++ chars "'; this.onerror=null;" ++ [dq] ++ rest) =
  src_open ++ (base ++ chars ".webp") ++ [dq]
    ++ chars " onerror=" ++ [dq]
    ++ chars "this.src='" ++ (base ++ chars ".png")
    ++ chars "'; this.onerror=null;" ++ [dq]
    ++ replace_img (chars "jpg") 0 rest.
Proof.
  intros Hdq.
  assert (∀ t z : list ascii,
            (t ++ [dq] ++ z) = t ++ dq :: z) as Hcons by done.
  rewrite !Hcons.
  rewrite replace_img_other_tag.
  - do 2 f_equal. f_equal.
    rewrite replace_img_segment; [|by_compute|by_compute].
    do 2 f_equal.
    replace (chars "this.src='" ++ (base ++ chars ".png")
               ++ chars "'; this.onerror=null;" ++ dq :: rest)
      with ((chars "this.src='" ++ (base ++ chars ".png")
               ++ chars "'; this.onerror=null;") ++ dq :: rest)
      by by rewrite <- !app_assoc.
    rewrite replace_img_segment.
    + by rewrite <- !app_assoc.
    + rewrite !not_elem_of_app.
      repeat split; try done; by_compute.
    + change (chars "'; this.onerror=null;")
        with (chars "'; this.onerror=n" ++ chars "ull;").
      rewrite !app_assoc. by apply not_suffix_tail.
  - rewrite not_elem_of_app. split; [done | by_compute].
  - change (chars ".webp") with (chars "." ++ chars "webp").
    rewrite app_assoc. by apply not_suffix_tail.
  - intros [Hs _]. revert Hs.
    change (chars ".webp") with (chars "." ++ chars "webp").
    rewrite app_assoc. by apply not_suffix_tail.
Qed.

Lemma jpg_pass_keeps_png_rewrite_witness :
  replace_img (chars "jpg") 0
    (replace_img (chars "png") 0
       (src_open ++ (chars "a" ++ chars "." ++ chars "png")
          ++ dq :: chars ">"))
  = replace_img (chars "png") 0
      (src_open ++ (chars "a" ++ chars "." ++ chars "png")
         ++ dq :: chars ">").
Proof.
  apply (jpg_pass_keeps_png_rewrite (chars "a") (chars ">")).
  by_compute.
Defined.
End page_passes.
